(** * hapi web client: session selection, grouping and bulk deletion

    A shallow embedding of
      - [web/src/components/SessionList.tsx]: [selectionReducer],
        [getGroupDisplayName], [groupSessionsByDirectory] and the selection
        handlers and effects of the [SessionList] component;
      - [web/src/hooks/mutations/useSessionActions.ts]: the permission-mode
        mutation of [useSessionActions] and the bulk deletion of
        [useBulkSessionActions].

    JavaScript values are modelled as the code uses them: a [Set<string>]
    and a [Map<string, V>] keep their insertion order (it is what
    [Array.from] observes), numbers that hold timestamps and counters are
    integers, [Array.prototype.sort] is the stable sort ECMAScript
    prescribes, and a promise is described by the result it settles with
    and the time at which it settles. *)

From Stdlib Require Import ZArith List Ascii String Sorting.Sorted Sorting.Permutation.
From stdpp Require Import base decidable numbers list strings sets gmap.

Local Open Scope Z_scope.
Local Open Scope string_scope.
Local Open Scope list_scope.

(** ** JavaScript containers *)

(** [Set<string>]: the elements in insertion order, without duplicates. *)
Module JsSet.

Definition t := list string.

Definition empty : t := [].

Definition has (s : t) (x : string) : bool := bool_decide (x ∈ s).

(** [s.add(x)]: a new element goes last, a present one stays in place. *)
Definition add (x : string) (s : t) : t :=
  if has s x then s else s ++ [x].

(** [s.delete(x)] *)
Definition delete (x : string) (s : t) : t :=
  filter (λ y, y ≠ x) s.

(** [new Set(iterable)]: elements are added one by one, left to right. *)
Definition of_array (l : list string) : t :=
  fold_left (λ s x, add x s) l empty.

(** [Array.from(s)] *)
Definition to_array (s : t) : list string := s.

(** [s.size] *)
Definition size (s : t) : nat := length s.

(** The mathematical set a [Set<string>] denotes. *)
Definition ids (s : t) : gset string := list_to_set s.

(** Representation invariant: no element is stored twice. *)
Definition wf (s : t) : Prop := NoDup s.

End JsSet.

(** [Map<string, V>]: the entries in insertion order, one per key. *)
Module JsMap.

Definition t (V : Type) := list (string * V).

Definition empty {V} : t V := [].

Definition has {V} (m : t V) (k : string) : bool := bool_decide (k ∈ m.*1).

Fixpoint get {V} (m : t V) (k : string) : option V :=
  match m with
  | [] => None
  | (k', v) :: m' => if decide (k' = k) then Some v else get m' k
  end.

(** [m.set(k, v)]: a present key keeps its place, a new one goes last. *)
Fixpoint set {V} (k : string) (v : V) (m : t V) : t V :=
  match m with
  | [] => [(k, v)]
  | (k', v') :: m' =>
      if decide (k' = k) then (k', v) :: m' else (k', v') :: set k v m'
  end.

(** [Array.from(m.entries())] *)
Definition entries {V} (m : t V) : list (string * V) := m.

End JsMap.

(** ** Selection state management ([SessionList.tsx], lines 14-56) *)

Record SelectionState := {
  selectionMode : bool;
  selectedIds : JsSet.t
}.

Inductive SelectionAction :=
  | ENTER_SELECTION_MODE
  | EXIT_SELECTION_MODE
  | TOGGLE_SESSION (sessionId : string)
  | SELECT_ALL (sessionIds : list string)
  | SET_SELECTION (sessionIds : list string)
  | CLEAR_SELECTION.

Definition selectionReducer (state : SelectionState) (action : SelectionAction)
  : SelectionState :=
  match action with
  | ENTER_SELECTION_MODE =>
      {| selectionMode := true; selectedIds := selectedIds state |}
  | EXIT_SELECTION_MODE =>
      {| selectionMode := false; selectedIds := JsSet.empty |}
  | TOGGLE_SESSION sessionId =>
      let newSelectedIds := JsSet.of_array (JsSet.to_array (selectedIds state)) in
      let newSelectedIds :=
        if JsSet.has newSelectedIds sessionId
        then JsSet.delete sessionId newSelectedIds
        else JsSet.add sessionId newSelectedIds in
      {| selectionMode := selectionMode state; selectedIds := newSelectedIds |}
  | SELECT_ALL sessionIds =>
      let newSelectedIds := JsSet.of_array sessionIds in
      {| selectionMode := selectionMode state; selectedIds := newSelectedIds |}
  | SET_SELECTION sessionIds =>
      let newSelectedIds := JsSet.of_array sessionIds in
      {| selectionMode := selectionMode state; selectedIds := newSelectedIds |}
  | CLEAR_SELECTION =>
      {| selectionMode := selectionMode state; selectedIds := JsSet.empty |}
  end.

(** The state [useReducer] starts from. *)
Definition initialSelection : SelectionState :=
  {| selectionMode := false; selectedIds := JsSet.empty |}.

(** [dispatchSelection] called once per action, in order. *)
Definition dispatchAll (state : SelectionState) (actions : list SelectionAction)
  : SelectionState :=
  fold_left selectionReducer actions state.

(** ** JavaScript numbers *)

(** The values the code can hold in a number: integers (timestamps, counts,
    their differences) and what arithmetic on [-Infinity] adds to them. *)
Inductive Number :=
  | Num (z : Z)
  | Infinity
  | NegInfinity
  | NaN.

(** [a - b] *)
Definition num_sub (a b : Number) : Number :=
  match a, b with
  | Num x, Num y => Num (x - y)
  | NaN, _ | _, NaN => NaN
  | Infinity, Infinity => NaN
  | NegInfinity, NegInfinity => NaN
  | Infinity, _ => Infinity
  | NegInfinity, _ => NegInfinity
  | Num _, Infinity => NegInfinity
  | Num _, NegInfinity => Infinity
  end.

(** [a > b] *)
Definition num_gt (a b : Number) : bool :=
  match a, b with
  | Num x, Num y => bool_decide (y < x)
  | NaN, _ | _, NaN => false
  | Infinity, Infinity => false
  | Infinity, _ => true
  | _, Infinity => false
  | NegInfinity, _ => false
  | Num _, NegInfinity => true
  end.

(** ** [Array.prototype.sort] *)

(** ECMAScript sorts stably and reads a comparator result [v] as "after"
    when [v > 0], as "before" when [v < 0], and as "equal" when [v] is zero
    or [NaN]. Stable insertion gives that result for every comparator that
    orders the elements consistently: an element is moved behind exactly
    the elements it has to come after. *)
Section ArraySort.
Context {A : Type} (comparefn : A → A → Number).

Definition comes_after (x y : A) : bool := num_gt (comparefn x y) (Num 0).

(** The comparator ties [x] and [y]: neither has to come after the other. *)
Definition tied (x y : A) : Prop :=
  comes_after x y = false ∧ comes_after y x = false.

Fixpoint sort_insert (x : A) (l : list A) : list A :=
  match l with
  | [] => [x]
  | y :: l' => if comes_after x y then y :: sort_insert x l' else x :: y :: l'
  end.

Fixpoint array_sort (l : list A) : list A :=
  match l with
  | [] => []
  | x :: l' => sort_insert x (array_sort l')
  end.
End ArraySort.

(** ** Sessions *)

(** Modelled from the spec: the declaration of [SessionSummary]
    ([@/types/api]) is not part of the sources; these are the fields the
    code reads, with [metadata], [worktree], [path] and [basePath] optional
    as the optional chaining of the code treats them. *)
Record WorktreeMetadata := {
  basePath : option string
}.

Record SessionMetadata := {
  path : option string;
  worktree : option WorktreeMetadata;
  flavor : option string
}.

Record SessionSummary := {
  id : string;
  active : bool;
  updatedAt : Z;
  pendingRequestsCount : Z;
  metadata : option SessionMetadata
}.

(** ** Grouping ([SessionList.tsx], lines 58-108) *)

Record SessionGroup := {
  directory : string;
  displayName : string;
  sessions : list SessionSummary;
  latestUpdatedAt : Number;
  hasActiveSession : bool
}.

Definition is_separator (c : ascii) : bool :=
  bool_decide (c = "/"%char) || bool_decide (c = "\"%char).

(** [directory.split(/[\\/]+/).filter(Boolean)]: the maximal runs of
    characters other than [/] and [\]. *)
Fixpoint split_path (current : string) (directory : string) : list string :=
  let flush := if decide (current = "") then [] else [current] in
  match directory with
  | EmptyString => flush
  | String c rest =>
      if is_separator c then flush ++ split_path "" rest
      else split_path (current +:+ String c "") rest
  end.

Definition getGroupDisplayName (directory : string) : string :=
  if decide (directory = "Other") then directory
  else
    let parts := split_path "" directory in
    match rev parts with
    | [] => directory
    | [part] => part
    | last :: before_last :: _ => before_last +:+ "/" +:+ last
    end.

(** Optional chaining [x?.f] and nullish coalescing [x ?? y]. *)
Definition chain {A B} (x : option A) (f : A → option B) : option B :=
  match x with
  | Some v => f v
  | None => None
  end.

Definition coalesce {A} (x : option A) (y : A) : A :=
  match x with
  | Some v => v
  | None => y
  end.

(** [session.metadata?.worktree?.basePath ?? session.metadata?.path ?? 'Other'] *)
Definition groupKey (session : SessionSummary) : string :=
  coalesce (chain (chain (metadata session) worktree) basePath)
    (coalesce (chain (metadata session) path) "Other").

(** The body of [sessions.forEach]: create the group on first sight, then
    push the session to the group's array. *)
Definition add_to_groups (groups : JsMap.t (list SessionSummary))
    (session : SessionSummary) : JsMap.t (list SessionSummary) :=
  let path := groupKey session in
  let groups := if JsMap.has groups path then groups else JsMap.set path [] groups in
  match JsMap.get groups path with
  | Some groupSessions => JsMap.set path (groupSessions ++ [session]) groups
  | None => groups
  end.

Definition sessionRank (a : SessionSummary) : Z :=
  if active a then (if bool_decide (0 < pendingRequestsCount a) then 0 else 1) else 2.

Definition compareSessions (a b : SessionSummary) : Number :=
  let rankA := sessionRank a in
  let rankB := sessionRank b in
  if bool_decide (rankA ≠ rankB) then Num (rankA - rankB)
  else Num (updatedAt b - updatedAt a).

Definition compareGroups (a b : SessionGroup) : Number :=
  if bool_decide (hasActiveSession a ≠ hasActiveSession b)
  then (if hasActiveSession a then Num (-1) else Num 1)
  else num_sub (latestUpdatedAt b) (latestUpdatedAt a).

Definition makeGroup (entry : string * list SessionSummary) : SessionGroup :=
  let '(directory, groupSessions) := entry in
  let sortedSessions := array_sort compareSessions groupSessions in
  let latestUpdatedAt :=
    fold_left
      (λ max s, if num_gt (Num (updatedAt s)) max then Num (updatedAt s) else max)
      groupSessions NegInfinity in
  let hasActiveSession := existsb active groupSessions in
  let displayName := getGroupDisplayName directory in
  {| directory := directory;
     displayName := displayName;
     sessions := sortedSessions;
     latestUpdatedAt := latestUpdatedAt;
     hasActiveSession := hasActiveSession |}.

Definition groupSessionsByDirectory (sessions : list SessionSummary)
  : list SessionGroup :=
  let groups := fold_left add_to_groups sessions JsMap.empty in
  array_sort compareGroups (makeGroup <$> JsMap.entries groups).

(** ** Promises and the API client *)

(** The values a promise of the API client is rejected with. *)
Inductive JsValue :=
  | JsUndefined
  | JsNull
  | JsString (s : string)
  | JsError (name message : string)
  | JsObject (message : option string).

(** [reason?.message] *)
Definition message_of (reason : JsValue) : option string :=
  match reason with
  | JsError _ message => Some message
  | JsObject message => message
  | JsUndefined | JsNull | JsString _ => None
  end.

(** [String(reason)]; an [Error] prints as [Error.prototype.toString] has it. *)
Definition String_of (reason : JsValue) : string :=
  match reason with
  | JsUndefined => "undefined"
  | JsNull => "null"
  | JsString s => s
  | JsError name message =>
      if decide (name = "") then message
      else if decide (message = "") then name
      else name +:+ ": " +:+ message
  | JsObject _ => "[object Object]"
  end.

(** What [new Error(message)] throws. *)
Definition Error (message : string) : JsValue := JsError "Error" message.

(** How a promise settles. *)
Inductive Settlement (T : Type) :=
  | Fulfilled (value : T)
  | Rejected (reason : JsValue).
Arguments Fulfilled {T} value.
Arguments Rejected {T} reason.

(** Modelled from the spec: the API client ([@/api/client]) is an external
    collaborator whose operations are asynchronous and fail with an error
    on rejection. One run of it is described by how the [n]-th call of
    [deleteSession] settles and at which time it does so, and by how a
    call of [setPermissionMode] settles. *)
Module Api.
Record Client := {
  deleteSession : nat → string → Settlement unit;
  settlesAt : nat → string → nat;
  setPermissionMode : string → string → Settlement unit
}.
End Api.

(** ** Session actions ([useSessionActions.ts]) *)

(** The calls made to the API client by the permission-mode mutation. *)
Inductive ApiCall :=
  | CallSetPermissionMode (sessionId : string) (mode : string).

(** The [mutationFn] of [permissionMutation] (lines 61-72). The two
    predicates [isKnownFlavor] ([@/lib/agentFlavorUtils]) and
    [isPermissionModeAllowedForFlavor] ([@hapi/protocol]) are imported by
    the code and taken as parameters here. [sessionId: string | null] is
    falsy when it is [null] or the empty string. The result is the list of
    API calls made and the way the returned promise settles. *)
Definition setPermissionMode
    (isKnownFlavor : option string → bool)
    (isPermissionModeAllowedForFlavor : string → option string → bool)
    (api : option Api.Client) (sessionId : option string)
    (agentFlavor : option string) (mode : string)
  : list ApiCall * Settlement unit :=
  match api, sessionId with
  | Some api, Some sessionId =>
      if bool_decide (sessionId = "")
      then ([], Rejected (Error "Session unavailable"))
      else if isKnownFlavor agentFlavor
              && negb (isPermissionModeAllowedForFlavor mode agentFlavor)
      then ([], Rejected (Error "Invalid permission mode for session flavor"))
      else ([CallSetPermissionMode sessionId mode],
            Api.setPermissionMode api sessionId mode)
  | _, _ => ([], Rejected (Error "Session unavailable"))
  end.

(** *** Bulk deletion ([useBulkSessionActions], lines 127-172) *)

Module Failed.
Record t := { id : string; error : string }.
End Failed.

Record BulkDeleteResult := {
  succeeded : list string;
  failed : list Failed.t
}.

(** What an observer of the API client sees: the [n]-th call of
    [deleteSession] being made, and its promise settling. *)
Inductive Event :=
  | Called (n : nat) (id : string)
  | Settled (n : nat) (id : string) (result : Settlement unit).

(** [(result.reason as { message?: string } | undefined)?.message || String(result.reason)] *)
Definition failure_text (reason : JsValue) : string :=
  match message_of reason with
  | Some message => if decide (message = "") then String_of reason else message
  | None => String_of reason
  end.

(** [array.slice(i, j)] for [i <= j] *)
Definition slice {A} (l : list A) (i j : nat) : list A := take (j - i) (drop i l).

Definition limit : nat := 5.

(** The calls of one batch, numbered from [first] on. *)
Definition batch_calls (first : nat) (batch : list string) : list (nat * string) :=
  imap (λ j id, ((first + j)%nat, id)) batch.

(** The order in which the promises of a batch settle: by settling time,
    calls that settle at the same time in the order they were made. *)
Definition completion_order (api : Api.Client) (calls : list (nat * string))
  : list (nat * string) :=
  array_sort
    (λ a b, Num (Z.of_nat (Api.settlesAt api a.1 a.2) - Z.of_nat (Api.settlesAt api b.1 b.2)))
    calls.

(** The body of [results.forEach((result, index) => ...)]. *)
Definition classify (batch : list string) (acc : BulkDeleteResult)
    (entry : nat * Settlement unit) : BulkDeleteResult :=
  let '(index, result) := entry in
  match batch !! index with
  | None => acc
  | Some id =>
      match result with
      | Fulfilled _ =>
          {| succeeded := succeeded acc ++ [id]; failed := failed acc |}
      | Rejected reason =>
          {| succeeded := succeeded acc;
             failed := failed acc
                       ++ [{| Failed.id := id; Failed.error := failure_text reason |}] |}
      end
  end.

Record BulkState := {
  result_so_far : BulkDeleteResult;
  calls_made : nat;
  trace : list Event
}.

Definition called (c : nat * string) : Event := Called c.1 c.2.

Definition settled (api : Api.Client) (c : nat * string) : Event :=
  Settled c.1 c.2 (Api.deleteSession api c.1 c.2).

(** [await Promise.allSettled(batch.map(id => api.deleteSession(id)))]: the
    calls are made in the order of the batch, and the loop goes on when all
    of them have settled. *)
Definition batch_events (api : Api.Client) (calls : list (nat * string)) : list Event :=
  (called <$> calls) ++ (settled api <$> completion_order api calls).

(** One iteration of the loop: make the calls of the batch, wait until all
    of them have settled, and classify the results by index. *)
Definition run_batch (api : Api.Client) (batch : list string) (st : BulkState)
  : BulkState :=
  let calls := batch_calls (calls_made st) batch in
  let results := (λ c, Api.deleteSession api c.1 c.2) <$> calls in
  {| result_so_far :=
       fold_left (classify batch) (imap (λ index result, (index, result)) results)
                 (result_so_far st);
     calls_made := (calls_made st + length batch)%nat;
     trace := trace st ++ batch_events api calls |}.

(** [for (let i = 0; i < sessionIds.length; i += limit)], with the number
    of iterations left as the structurally decreasing argument. *)
Fixpoint bulk_loop (fuel : nat) (api : Api.Client) (sessionIds : list string)
    (i : nat) (st : BulkState) : BulkState :=
  if bool_decide (i < length sessionIds)%nat then
    match fuel with
    | O => st
    | S fuel' =>
        let batch := slice sessionIds i (i + limit) in
        bulk_loop fuel' api sessionIds (i + limit)%nat (run_batch api batch st)
    end
  else st.

(** The [mutationFn] of [bulkDeleteMutation]: the events at the API client
    and the way the returned promise settles. *)
Definition bulkDelete (api : option Api.Client) (sessionIds : list string)
  : list Event * Settlement BulkDeleteResult :=
  match api with
  | None => ([], Rejected (Error "API unavailable"))
  | Some api =>
      let st :=
        bulk_loop (length sessionIds) api sessionIds 0
          {| result_so_far := {| succeeded := []; failed := [] |};
             calls_made := 0;
             trace := [] |} in
      (trace st, Fulfilled (result_so_far st))
  end.

(** ** The selection controller ([SessionList], lines 440-596) *)

Module Toast.
(** A toast as handed to [addToast]: the translation keys of its title
    and body and the count [n] the body is formatted with. *)
Record t := { title : string; body : string; n : nat }.
End Toast.

Record Controller := {
  selectionState : SelectionState;
  bulkDeleteDialogOpen : bool;
  toasts : list Toast.t
}.

Definition dispatchSelection (action : SelectionAction) (c : Controller) : Controller :=
  {| selectionState := selectionReducer (selectionState c) action;
     bulkDeleteDialogOpen := bulkDeleteDialogOpen c;
     toasts := toasts c |}.

Definition addToast (toast : Toast.t) (c : Controller) : Controller :=
  {| selectionState := selectionState c;
     bulkDeleteDialogOpen := bulkDeleteDialogOpen c;
     toasts := toasts c ++ [toast] |}.

Definition setBulkDeleteDialogOpen (open : bool) (c : Controller) : Controller :=
  {| selectionState := selectionState c;
     bulkDeleteDialogOpen := open;
     toasts := toasts c |}.

Definition getPluralKey (locale : string) (keyBase : string) (n : nat) : string :=
  if bool_decide (locale ≠ "en") then keyBase
  else keyBase +:+ "_" +:+ (if bool_decide (n = 1%nat) then "one" else "other").

(** [props.sessions.filter(s => !s.active).map(s => s.id)] *)
Definition selectableSessionIds (sessions : list SessionSummary) : list string :=
  id <$> filter (λ s, active s = false) sessions.

Definition handleEnterSelectionMode (c : Controller) : Controller :=
  dispatchSelection ENTER_SELECTION_MODE c.

Definition handleExitSelectionMode (c : Controller) : Controller :=
  dispatchSelection EXIT_SELECTION_MODE (setBulkDeleteDialogOpen false c).

(** [SessionItem]: a click or the space key on an item toggles it only in
    selection mode and only when the session is not active (lines 283-310). *)
Definition itemToggle (s : SessionSummary) (c : Controller) : Controller :=
  if selectionMode (selectionState c) && negb (active s)
  then dispatchSelection (TOGGLE_SESSION (id s)) c
  else c.

(** [handleConfirmBulkDelete] after [await deleteSessions(selectedIds)] has
    produced a result (lines 542-568), run on the controller state of that
    moment. *)
Definition applyBulkDeleteResult (locale : string) (result : BulkDeleteResult)
    (c : Controller) : Controller :=
  let succeeded := succeeded result in
  let failed := failed result in
  let c :=
    if bool_decide (length failed = 0%nat) then
      let c := dispatchSelection EXIT_SELECTION_MODE c in
      addToast
        {| Toast.title := "session.bulkDelete.toastSuccessTitle";
           Toast.body := getPluralKey locale "session.bulkDelete.toastSuccessBody"
                           (length succeeded);
           Toast.n := length succeeded |} c
    else if bool_decide (length succeeded = 0%nat) then
      addToast
        {| Toast.title := "session.bulkDelete.toastAllFailedTitle";
           Toast.body := getPluralKey locale "session.bulkDelete.toastAllFailedBody"
                           (length failed);
           Toast.n := length failed |} c
    else
      let c := dispatchSelection CLEAR_SELECTION c in
      let c := dispatchSelection (SELECT_ALL (Failed.id <$> failed)) c in
      addToast
        {| Toast.title := "session.bulkDelete.toastPartialFailedTitle";
           Toast.body := getPluralKey locale "session.bulkDelete.toastPartialFailedBody"
                           (length failed);
           Toast.n := length failed |} c in
  setBulkDeleteDialogOpen false c.

(** [handleConfirmBulkDelete] (lines 538-569) when nothing else happens
    while the deletion is in flight: the ids are read from the selection,
    and a rejected [deleteSessions] leaves the handler at the [await]. *)
Definition handleConfirmBulkDelete (locale : string) (api : option Api.Client)
    (c : Controller) : list Event * Controller :=
  let selectedIds := JsSet.to_array (selectedIds (selectionState c)) in
  match bulkDelete api selectedIds with
  | (events, Fulfilled result) => (events, applyBulkDeleteResult locale result c)
  | (events, Rejected _) => (events, c)
  end.

(** The effect "clear invalid selections when sessions list updates"
    (lines 585-596), as the state it leaves behind. *)
Definition reconcileSelection (sessions : list SessionSummary)
    (state : SelectionState) : SelectionState :=
  if bool_decide (JsSet.size (selectedIds state) = 0%nat) then state
  else
    let selectableIdSet := JsSet.of_array (selectableSessionIds sessions) in
    let validSelectedIds :=
      filter (λ id, JsSet.has selectableIdSet id = true)
             (JsSet.to_array (selectedIds state)) in
    if bool_decide (length validSelectedIds = JsSet.size (selectedIds state)) then state
    else
      let state := selectionReducer state CLEAR_SELECTION in
      if bool_decide (0 < length validSelectedIds)%nat
      then selectionReducer state (SELECT_ALL validSelectedIds)
      else state.

(** ** Vocabulary of the statements *)



(** The ids that can be selected: those of the sessions that are not active. *)
Definition selectable (sessions : list SessionSummary) : gset string :=
  list_to_set (selectableSessionIds sessions).

(** The calls of a bulk deletion, numbered in the order they are made. *)
Definition numbered (ids : list string) : list (nat * string) := batch_calls 0 ids.

(** A list cut into consecutive chunks of [limit] elements, the last one
    possibly shorter: chunk [k] holds the elements [k * limit] up to
    [k * limit + limit]. *)
Definition chunks {A} (l : list A) : list (list A) :=
  (λ k, slice l (k * limit) (k * limit + limit))
  <$> seq 0 ((length l + (limit - 1)) / limit).

(** What is observed for one chunk: its calls are made in order, then all
    of them settle, in some order. *)
Definition chunk_trace (api : Api.Client) (chunk : list (nat * string))
    (events : list Event) : Prop :=
  ∃ order, order ≡ₚ chunk ∧ events = (called <$> chunk) ++ (settled api <$> order).

(** In [events], the call [c] has settled before the call [c'] is made. *)
Definition settles_before_call (api : Api.Client) (events : list Event)
    (c c' : nat * string) : Prop :=
  ∃ before between after,
    events = before ++ settled api c :: between ++ called c' :: after.

(** The calls made, in the order they are made. *)
Definition calls_of (events : list Event) : list (nat * string) :=
  omap (λ e, match e with Called n id => Some (n, id) | Settled _ _ _ => None end) events.

Definition is_fulfilled {T} (result : Settlement T) : bool :=
  match result with Fulfilled _ => true | Rejected _ => false end.

(** The ids of the calls that settle with a result satisfying [p], in the
    order in which they settle. *)
Definition settled_with (p : Settlement unit → bool) (events : list Event) : list string :=
  omap (λ e, match e with
             | Settled _ id result => if p result then Some id else None
             | Called _ _ => None
             end) events.

(** The ids whose calls are fulfilled, and the entries for the ids whose
    calls are rejected, both in the order of the calls. *)
Definition fulfilled_ids (api : Api.Client) (calls : list (nat * string)) : list string :=
  omap (λ c, match Api.deleteSession api c.1 c.2 with
             | Fulfilled _ => Some c.2
             | Rejected _ => None
             end) calls.

Definition rejected_entries (api : Api.Client) (calls : list (nat * string))
  : list Failed.t :=
  omap (λ c, match Api.deleteSession api c.1 c.2 with
             | Fulfilled _ => None
             | Rejected reason =>
                 Some {| Failed.id := c.2; Failed.error := failure_text reason |}
             end) calls.

(** The three tiers of the order within a group: 0 for an active session
    with pending requests, 1 for an active session without, 2 for an
    inactive session. *)
Definition tier (s : SessionSummary) : Z :=
  if active s && bool_decide (0 < pendingRequestsCount s) then 0
  else if active s then 1
  else 2.

(** [a] may stand before [b] in a group: a lower tier first, and within a
    tier the later [updatedAt] first. *)
Definition session_before (a b : SessionSummary) : Prop :=
  (tier a < tier b)%Z ∨ (tier a = tier b ∧ (updatedAt b ≤ updatedAt a)%Z).

Definition contains_active (g : SessionGroup) : Prop :=
  ∃ s, s ∈ sessions g ∧ active s = true.

(** [m] is the greatest [updatedAt] of the sessions of [g]. *)
Definition latest_of (g : SessionGroup) (m : Z) : Prop :=
  (∃ s, s ∈ sessions g ∧ updatedAt s = m) ∧ ∀ s, s ∈ sessions g → (updatedAt s ≤ m)%Z.

(** [g] may stand before [h] in the list of groups: a group with an active
    session before a group without one, and among groups of the same kind
    the later [latestUpdatedAt] first. *)
Definition group_before (g h : SessionGroup) : Prop :=
  ∃ m n,
    latestUpdatedAt g = Num m ∧ latestUpdatedAt h = Num n
    ∧ ((hasActiveSession g = true ∧ hasActiveSession h = false)
       ∨ (hasActiveSession g = hasActiveSession h ∧ (n ≤ m)%Z)).

(** The [latestUpdatedAt] of [g] is a number of its own, not [-Infinity]. *)
Definition has_latest (g : SessionGroup) : Prop := ∃ m, latestUpdatedAt g = Num m.

(** ** Further code of [SessionList.tsx] *)

(** What [formatRelativeTime] hands to the translation function [t], or the
    date it prints. *)
Inductive RelativeTime :=
  | JustNow
  | MinutesAgo (n : Z)
  | HoursAgo (n : Z)
  | DaysAgo (n : Z)
  | LocaleDate (ms : Z).

(** [formatRelativeTime] (lines 236-248), with the value of [Date.now()] as
    a parameter. A value that is not finite ([NaN], an infinity) stays so
    under [value * 1000] and gives [null]. *)
Definition formatRelativeTime (now : Z) (value : Number) : option RelativeTime :=
  match value with
  | Num value =>
      let ms := if bool_decide (value < 1000000000000) then value * 1000 else value in
      let delta := now - ms in
      if bool_decide (delta < 60000) then Some JustNow
      else
        let minutes := delta / 60000 in
        if bool_decide (minutes < 60) then Some (MinutesAgo minutes)
        else
          let hours := minutes / 60 in
          if bool_decide (hours < 24) then Some (HoursAgo hours)
          else
            let days := hours / 24 in
            if bool_decide (days < 7) then Some (DaysAgo days)
            else Some (LocaleDate ms)
  | Infinity | NegInfinity | NaN => None
  end.

(** The derived quantities of [SessionList] (lines 478-502). *)
Definition selectedCount (state : SelectionState) : nat :=
  JsSet.size (selectedIds state).

Definition selectableCount (sessions : list SessionSummary) : nat :=
  length (selectableSessionIds sessions).

Definition isAllSelected (sessions : list SessionSummary) (state : SelectionState) : bool :=
  bool_decide (0 < selectableCount sessions)%nat
  && bool_decide (selectedCount state = selectableCount sessions).

Definition isIndeterminate (sessions : list SessionSummary) (state : SelectionState) : bool :=
  bool_decide (0 < selectedCount state)%nat
  && bool_decide (selectedCount state < selectableCount sessions)%nat.

Definition hasSelection (state : SelectionState) : bool :=
  selectionMode state && bool_decide (0 < JsSet.size (selectedIds state))%nat.

(** [handleSelectAll] (lines 571-577) *)
Definition handleSelectAll (sessions : list SessionSummary) (c : Controller) : Controller :=
  if isAllSelected sessions (selectionState c)
  then dispatchSelection CLEAR_SELECTION c
  else dispatchSelection (SELECT_ALL (selectableSessionIds sessions)) c.

(** The checkbox of a group (lines 789-819). *)
Definition groupSelectableSessionIds (state : SelectionState) (group : SessionGroup)
  : list string :=
  if selectionMode state
  then id <$> filter (λ s, active s = false) (sessions group)
  else [].

Definition groupSelectedCount (state : SelectionState) (group : SessionGroup) : nat :=
  if selectionMode state
  then length (filter (λ id, JsSet.has (selectedIds state) id = true)
                      (groupSelectableSessionIds state group))
  else 0%nat.

Definition groupAllSelected (state : SelectionState) (group : SessionGroup) : bool :=
  bool_decide (0 < length (groupSelectableSessionIds state group))%nat
  && bool_decide (groupSelectedCount state group
                  = length (groupSelectableSessionIds state group)).

(** The [onChange] of the group's checkbox. *)
Definition handleGroupToggle (group : SessionGroup) (c : Controller) : Controller :=
  let state := selectionState c in
  let nextSelectedIds := JsSet.of_array (JsSet.to_array (selectedIds state)) in
  let nextSelectedIds :=
    if groupAllSelected state group
    then fold_left (λ s id, JsSet.delete id s)
                   (groupSelectableSessionIds state group) nextSelectedIds
    else fold_left (λ s id, JsSet.add id s)
                   (groupSelectableSessionIds state group) nextSelectedIds in
  dispatchSelection (SET_SELECTION (JsSet.to_array nextSelectedIds)) c.

(** The collapse overrides (lines 646-677): a [Map<string, boolean>] that
    is only read by key, so its insertion order is not observable. *)
Definition isGroupCollapsed (collapseOverrides : gmap string bool) (group : SessionGroup)
  : bool :=
  match collapseOverrides !! directory group with
  | Some override => override
  | None => negb (hasActiveSession group)
  end.

Definition toggleGroup (directory : string) (isCollapsed : bool)
    (prev : gmap string bool) : gmap string bool :=
  <[directory := negb isCollapsed]> prev.

(** The effect that drops the overrides of groups that are gone: the loop
    over [next.keys()] deletes every key that is no directory of a group. *)
Definition pruneCollapseOverrides (groups : list SessionGroup)
    (prev : gmap string bool) : gmap string bool :=
  if bool_decide (size prev = 0%nat) then prev
  else
    let knownGroups := JsSet.of_array (directory <$> groups) in
    let '(next, changed) :=
      fold_left
        (λ '(next, changed) directory,
           if JsSet.has knownGroups directory then (next, changed)
           else (delete directory next, true))
        (map_to_list prev).*1 (prev, false) in
    if (changed : bool) then next else prev.

(** ** Further code of [useSessionActions.ts] *)

(** What the mutation does to the query cache and the message store. *)
Inductive CacheEvent :=
  | RemoveSessionQuery (id : string)
  | ClearMessageWindow (id : string)
  | InvalidateSessionQuery (id : string)
  | InvalidateSessionsQuery.

(** The [onSuccess] of [bulkDeleteMutation] (lines 159-165). *)
Definition bulkDeleteOnSuccess (result : BulkDeleteResult) : list CacheEvent :=
  flat_map (λ id, [RemoveSessionQuery id; ClearMessageWindow id]) (succeeded result)
  ++ [InvalidateSessionsQuery].

(** [deleteSessions], the [mutateAsync] of [bulkDeleteMutation]: [onSuccess]
    runs when the [mutationFn] has resolved, and only then. *)
Definition deleteSessions (api : option Api.Client) (sessionIds : list string)
  : list Event * list CacheEvent * Settlement BulkDeleteResult :=
  match bulkDelete api sessionIds with
  | (events, Fulfilled result) => (events, bulkDeleteOnSuccess result, Fulfilled result)
  | (events, Rejected reason) => (events, [], Rejected reason)
  end.

(** ** Vocabulary of the further statements *)

(** The number of calls made and not yet settled after [events]. *)
Definition in_flight (events : list Event) : Z :=
  fold_left
    (λ open e, match e with Called _ _ => open + 1 | Settled _ _ _ => open - 1 end)
    events 0.


(** The entry of the grouping map for the key [k]: the sessions of the
    input with that key, in the order of the input. *)
Definition sessions_of_key (input : list SessionSummary) (k : string)
  : string * list SessionSummary :=
  (k, filter (λ s, groupKey s = k) input).


(** The timestamp [value] in milliseconds, as [formatRelativeTime] reads
    it: a value below [10^12] counts as seconds. *)
Definition milliseconds (value : Z) : Z :=
  if bool_decide (value < 1000000000000) then value * 1000 else value.

(** * Properties *)

(** ** Facts about [Set<string>] *)
Section JsSetFacts.
Implicit Types (s : JsSet.t) (l : list string) (x y : string).

Lemma has_true s x : JsSet.has s x = true ↔ x ∈ s.
Proof. unfold JsSet.has. by rewrite bool_decide_eq_true. Qed.

Lemma elem_of_add s x y : y ∈ JsSet.add x s ↔ y = x ∨ y ∈ s.
Proof.
  unfold JsSet.add. destruct (JsSet.has s x) eqn:E.
  - apply has_true in E. set_solver.
  - set_solver.
Qed.

Lemma elem_of_delete s x y : y ∈ JsSet.delete x s ↔ y ≠ x ∧ y ∈ s.
Proof. unfold JsSet.delete. by rewrite list_elem_of_filter. Qed.

Lemma elem_of_fold_add l s y :
  y ∈ fold_left (λ s x, JsSet.add x s) l s ↔ y ∈ s ∨ y ∈ l.
Proof.
  revert s. induction l as [|x l IH]; intros s; simpl.
  - set_solver.
  - rewrite IH, elem_of_add. set_solver.
Qed.

Lemma elem_of_of_array l y : y ∈ JsSet.of_array l ↔ y ∈ l.
Proof. unfold JsSet.of_array. rewrite elem_of_fold_add. set_solver. Qed.

Lemma NoDup_add s x : NoDup s → NoDup (JsSet.add x s).
Proof.
  intros Hs. unfold JsSet.add. destruct (JsSet.has s x) eqn:E; [done|].
  apply NoDup_app. split_and!; [done| |apply NoDup_singleton].
  intros y Hy ->%list_elem_of_singleton.
  apply has_true in Hy. congruence.
Qed.

Lemma NoDup_of_array l : NoDup (JsSet.of_array l).
Proof.
  unfold JsSet.of_array.
  assert (∀ s, NoDup s → NoDup (fold_left (λ s x, JsSet.add x s) l s)) as H.
  { induction l as [|x l IH]; intros s Hs; simpl; [done|].
    by apply IH, NoDup_add. }
  apply H, NoDup_nil_2.
Qed.

Lemma ids_of_array l : JsSet.ids (JsSet.of_array l) = list_to_set l.
Proof.
  unfold JsSet.ids. apply set_eq. intros y.
  by rewrite !elem_of_list_to_set, elem_of_of_array.
Qed.

End JsSetFacts.

(** ** The selection reducer *)

Lemma reducer_toggle_elem state sessionId x :
  x ∈ selectedIds (selectionReducer state (TOGGLE_SESSION sessionId))
  ↔ (x = sessionId ∧ x ∉ selectedIds state) ∨ (x ≠ sessionId ∧ x ∈ selectedIds state).
Proof.
  simpl. unfold JsSet.to_array.
  destruct (JsSet.has (JsSet.of_array (selectedIds state)) sessionId) eqn:E.
  - rewrite has_true, elem_of_of_array in E.
    rewrite elem_of_delete, elem_of_of_array.
    destruct (decide (x = sessionId)) as [Heq|Hne]; [subst x|]; intuition congruence.
  - assert (sessionId ∉ selectedIds state) as Hn.
    { rewrite <- elem_of_of_array, <- has_true. congruence. }
    rewrite elem_of_add, elem_of_of_array.
    destruct (decide (x = sessionId)) as [Heq|Hne]; [subst x|]; intuition congruence.
Qed.

Lemma reducer_wf state action :
  JsSet.wf (selectedIds state) → JsSet.wf (selectedIds (selectionReducer state action)).
Proof.
  unfold JsSet.wf. intros Hwf. destruct action; simpl; try done.
  - apply NoDup_nil_2.
  - destruct (JsSet.has _ _).
    + apply NoDup_filter, NoDup_of_array.
    + apply NoDup_add, NoDup_of_array.
  - apply NoDup_of_array.
  - apply NoDup_of_array.
  - apply NoDup_nil_2.
Qed.

(** Every state the reducer reaches holds a set without duplicates. *)
Lemma dispatchAll_wf actions : ∀ state,
  JsSet.wf (selectedIds state) → JsSet.wf (selectedIds (dispatchAll state actions)).
Proof.
  induction actions as [|action rest IH]; intros state Hwf; simpl; [done|].
  by apply IH, reducer_wf.
Qed.




(** C5 (as the code has it): [TOGGLE_SESSION] flips the membership of the
    id in [selectedIds], leaves every other id as it is and keeps
    [selectionMode], whether [selectionMode] is true or false; it is the
    item handler that does nothing outside selection mode. *)
Theorem toggle_flips_membership_in_any_mode state sessionId :
  let state' := selectionReducer state (TOGGLE_SESSION sessionId) in
  selectionMode state' = selectionMode state
  ∧ (sessionId ∈ JsSet.ids (selectedIds state')
     ↔ sessionId ∉ JsSet.ids (selectedIds state))
  ∧ (∀ x, x ≠ sessionId →
       (x ∈ JsSet.ids (selectedIds state') ↔ x ∈ JsSet.ids (selectedIds state)))
  ∧ (∀ s c, selectionMode (selectionState c) = false → itemToggle s c = c).
Proof.
  unfold JsSet.ids. split_and!.
  - done.
  - rewrite !elem_of_list_to_set, reducer_toggle_elem. naive_solver.
  - intros x Hx. rewrite !elem_of_list_to_set, reducer_toggle_elem. naive_solver.
  - intros s c Hc. unfold itemToggle. by rewrite Hc.
Qed.

Example toggle_in_initial_state :
  selectionReducer initialSelection (TOGGLE_SESSION "a")
  = {| selectionMode := false; selectedIds := ["a"] |}.
Proof. reflexivity. Qed.

(** C5, as stated, fails: outside selection mode the reducer does not
    return the state unchanged. *)
Lemma toggle_outside_selection_mode_is_no_noop :
  ¬ (∀ state sessionId,
       selectionMode state = false →
       selectionReducer state (TOGGLE_SESSION sessionId) = state).
Proof.
  intros H. specialize (H initialSelection "a" eq_refl). discriminate H.
Qed.

(** ** The selection controller *)

Lemma filter_length_eq {A} (P : A → Prop) `{∀ x, Decision (P x)} (l : list A) :
  length (filter P l) = length l → filter P l = l.
Proof.
  induction l as [|x l IH]; [done|].
  rewrite filter_cons. destruct (decide (P x)); simpl.
  - intros Hlen. f_equal. apply IH. lia.
  - intros Hlen. pose proof (length_filter P l). lia.
Qed.

Lemma reconcile_mode sessions state :
  selectionMode (reconcileSelection sessions state) = selectionMode state.
Proof.
  unfold reconcileSelection.
  repeat case_bool_decide; done.
Qed.

Lemma reconcile_elem sessions state x :
  x ∈ selectedIds (reconcileSelection sessions state)
  ↔ x ∈ selectedIds state ∧ x ∈ selectableSessionIds sessions.
Proof.
  unfold reconcileSelection, JsSet.size, JsSet.to_array.
  set (valid := filter (λ id, JsSet.has (JsSet.of_array (selectableSessionIds sessions)) id = true)
                       (selectedIds state)).
  assert (∀ y, y ∈ valid ↔ y ∈ selectedIds state ∧ y ∈ selectableSessionIds sessions)
    as Hvalid.
  { intros y. unfold valid. rewrite list_elem_of_filter, has_true, elem_of_of_array. tauto. }
  case_bool_decide as Hempty.
  { apply length_zero_iff_nil in Hempty. rewrite Hempty. set_solver. }
  case_bool_decide as Hlen.
  { apply filter_length_eq in Hlen. fold valid in Hlen.
    rewrite <- Hlen at 1. apply Hvalid. }
  case_bool_decide as Hpos; simpl.
  - by rewrite elem_of_of_array.
  - change (¬ (0 < length valid)%nat) in Hpos.
    assert (valid = []) as Hnil by (apply length_zero_iff_nil; lia).
    rewrite <- Hvalid, Hnil. done.
Qed.

(** C7: reconciliation keeps exactly the selected ids that are ids of
    non-active sessions of the new collection, so the selection becomes a
    subset of the selectable ids, and it keeps the selection mode; with
    [{x, y}] selected, [x] still selectable and [y] no longer so, it leaves
    exactly [{x}]. *)
Theorem reconcile_keeps_exactly_selectable sessions state :
  let state' := reconcileSelection sessions state in
  JsSet.ids (selectedIds state')
  = JsSet.ids (selectedIds state) ∩ selectable sessions
  ∧ JsSet.ids (selectedIds state') ⊆ selectable sessions
  ∧ selectionMode state' = selectionMode state
  ∧ (∀ x y, JsSet.ids (selectedIds state) = {[x; y]} →
       x ∈ selectable sessions → y ∉ selectable sessions →
       JsSet.ids (selectedIds state') = {[x]}).
Proof.
  assert (JsSet.ids (selectedIds (reconcileSelection sessions state))
          = JsSet.ids (selectedIds state) ∩ selectable sessions) as Heq.
  { unfold JsSet.ids, selectable. apply set_eq. intros x.
    rewrite elem_of_intersection, !elem_of_list_to_set. apply reconcile_elem. }
  simpl. split_and!.
  - done.
  - rewrite Heq. set_solver.
  - apply reconcile_mode.
  - intros x y Hxy Hx Hy. rewrite Heq, Hxy. set_solver.
Qed.

Lemma apply_result_all_succeeded locale result c :
  failed result = [] →
  selectionState (applyBulkDeleteResult locale result c)
  = {| selectionMode := false; selectedIds := JsSet.empty |}
  ∧ toasts (applyBulkDeleteResult locale result c)
    = toasts c
      ++ [{| Toast.title := "session.bulkDelete.toastSuccessTitle";
             Toast.body := getPluralKey locale "session.bulkDelete.toastSuccessBody"
                             (length (succeeded result));
             Toast.n := length (succeeded result) |}].
Proof.
  intros Hf. unfold applyBulkDeleteResult. rewrite Hf. done.
Qed.

Lemma apply_result_all_failed locale result c :
  succeeded result = [] → failed result ≠ [] →
  selectionState (applyBulkDeleteResult locale result c) = selectionState c.
Proof.
  intros Hs Hf. unfold applyBulkDeleteResult. rewrite Hs.
  case_bool_decide as Hlen; [|done].
  by apply length_zero_iff_nil in Hlen.
Qed.

Lemma apply_result_mixed locale result c :
  succeeded result ≠ [] → failed result ≠ [] →
  selectionState (applyBulkDeleteResult locale result c)
  = {| selectionMode := selectionMode (selectionState c);
       selectedIds := JsSet.of_array (Failed.id <$> failed result) |}.
Proof.
  intros Hs Hf. unfold applyBulkDeleteResult.
  case_bool_decide as Hlf; [by apply length_zero_iff_nil in Hlf|].
  case_bool_decide as Hls; [by apply length_zero_iff_nil in Hls|].
  done.
Qed.

(** C1: what the controller does with a [BulkDeleteResult]. All failed and
    none succeeded: the selection state (ids and mode) is left as it is.
    None failed: the selection is cleared and selection mode is left. Mixed:
    the selected ids become exactly the failed ids and the selection mode
    is kept. *)
Theorem bulk_delete_result_postconditions locale result c :
  let before := selectionState c in
  let after := selectionState (applyBulkDeleteResult locale result c) in
  (succeeded result = [] → failed result ≠ [] →
     selectedIds after = selectedIds before
     ∧ selectionMode after = selectionMode before)
  ∧ (failed result = [] →
       JsSet.ids (selectedIds after) = ∅ ∧ selectionMode after = false)
  ∧ (succeeded result ≠ [] → failed result ≠ [] →
       JsSet.ids (selectedIds after) = list_to_set (Failed.id <$> failed result)
       ∧ selectionMode after = selectionMode before).
Proof.
  cbv zeta. split_and!.
  - intros Hs Hf. by rewrite apply_result_all_failed.
  - intros Hf. by rewrite (proj1 (apply_result_all_succeeded locale result c Hf)).
  - intros Hs Hf. rewrite apply_result_mixed by done. simpl.
    by rewrite ids_of_array.
Qed.




(** ** The permission-mode mutation *)

Section PermissionMode.
Variable isKnownFlavor : option string → bool.
Variable isPermissionModeAllowedForFlavor : string → option string → bool.

(** [isKnownFlavor] is a type guard for the known flavor names: an absent
    flavor is not one of them. *)
Hypothesis absent_flavor_unknown : isKnownFlavor None = false.

(** C10 (as the code has it): with an API client and a non-empty session
    id at hand, [setPermissionMode] rejects locally with 'Invalid
    permission mode for session flavor', making no API call, if and only
    if the flavor is a known one and the policy disallows the mode for
    it; with an absent or unknown flavor the mode goes to the API
    unchecked. *)
Theorem permission_mode_checked_for_known_flavors_only
    api sessionId agentFlavor mode :
  sessionId ≠ "" →
  (setPermissionMode isKnownFlavor isPermissionModeAllowedForFlavor
     (Some api) (Some sessionId) agentFlavor mode
   = ([], Rejected (Error "Invalid permission mode for session flavor"))
   ↔ isKnownFlavor agentFlavor = true
     ∧ isPermissionModeAllowedForFlavor mode agentFlavor = false)
  ∧ (agentFlavor = None ∨ isKnownFlavor agentFlavor = false →
     setPermissionMode isKnownFlavor isPermissionModeAllowedForFlavor
       (Some api) (Some sessionId) agentFlavor mode
     = ([CallSetPermissionMode sessionId mode],
        Api.setPermissionMode api sessionId mode)).
Proof.
  intros Hsid. unfold setPermissionMode.
  rewrite bool_decide_eq_false_2 by done.
  split.
  - destruct (isKnownFlavor agentFlavor), (isPermissionModeAllowedForFlavor mode agentFlavor);
      simpl; split; try done; try (intros [??]; done).
  - intros [->|Hk].
    + by rewrite absent_flavor_unknown.
    + by rewrite Hk.
Qed.
End PermissionMode.

Lemma permission_mode_checked_for_known_flavors_only_witness :
  let known := λ f : option string, bool_decide (f = Some "claude") in
  let allowed := λ (mode : string) (f : option string), bool_decide (mode = "default") in
  let api := {| Api.deleteSession := λ _ _, Fulfilled ();
                Api.settlesAt := λ _ _, 0%nat;
                Api.setPermissionMode := λ _ _, Fulfilled () |} in
  setPermissionMode known allowed (Some api) (Some "s1") None "yolo"
  = ([CallSetPermissionMode "s1" "yolo"], Fulfilled ()).
Proof.
  intros known allowed api.
  apply (permission_mode_checked_for_known_flavors_only known allowed eq_refl
           api "s1" None "yolo"); [done|by left].
Defined.

Example known_flavor_without_api :
  setPermissionMode (λ _, true) (λ _ _, false) None (Some "s1") (Some "claude") "yolo"
  = ([], Rejected (Error "Session unavailable")).
Proof. reflexivity. Qed.

(** C10, as stated, fails: without an API client the mutation rejects with
    'Session unavailable', whatever the flavor and the policy say. *)
Lemma permission_mode_claim_fails_without_api :
  ¬ (∀ (isKnownFlavor : option string → bool)
       (isPermissionModeAllowedForFlavor : string → option string → bool)
       api sessionId agentFlavor mode,
       setPermissionMode isKnownFlavor isPermissionModeAllowedForFlavor
         api sessionId agentFlavor mode
       = ([], Rejected (Error "Invalid permission mode for session flavor"))
       ↔ isKnownFlavor agentFlavor = true
         ∧ isPermissionModeAllowedForFlavor mode agentFlavor = false).
Proof.
  intros H.
  specialize (H (λ _, true) (λ _ _, false) None (Some "s1") (Some "claude") "yolo").
  destruct H as [_ H]. specialize (H (conj eq_refl eq_refl)). discriminate H.
Qed.

(** ** Bulk deletion *)

Lemma slice_limit {A} (l : list A) i : slice l i (i + limit) = take limit (drop i l).
Proof. unfold slice. f_equal. lia. Qed.

Lemma chunks_nil {A} : chunks (@nil A) = [].
Proof. reflexivity. Qed.

Lemma chunks_unfold {A} (l : list A) :
  l ≠ [] → chunks l = take limit l :: chunks (drop limit l).
Proof.
  intros Hl. unfold chunks.
  assert (0 < length l)%nat as Hpos by (destruct l; simpl; [done|lia]).
  assert ((length l + (limit - 1)) / limit
          = S ((length (drop limit l) + (limit - 1)) / limit))%nat as ->.
  { rewrite length_drop. unfold limit.
    destruct (decide (length l < 5)%nat).
    - rewrite (Nat.div_small (length l - 5 + _)) by lia.
      symmetry. apply Nat.div_unique with (r := (length l - 1)%nat); lia.
    - replace (length l + (5 - 1))%nat with ((length l - 5 + (5 - 1)) + 1 * 5)%nat by lia.
      rewrite Nat.div_add by lia. lia. }
  rewrite <- cons_seq, fmap_cons. f_equal.
  rewrite <- fmap_S_seq, <- list_fmap_compose.
  apply list_fmap_ext. intros _ k _. simpl.
  rewrite !slice_limit, drop_drop. reflexivity.
Qed.

Lemma chunk_ind {A} (P : list A → Prop) :
  P [] → (∀ l, l ≠ [] → P (drop limit l) → P l) → ∀ l, P l.
Proof.
  intros Hnil Hstep l.
  remember (length l) as n eqn:Hn.
  revert l Hn. induction n as [n IH] using lt_wf_ind. intros l ->.
  destruct l as [|x l]; [done|].
  apply Hstep; [done|].
  apply (IH (length (drop limit (x :: l)))); [|done].
  rewrite length_drop. unfold limit. simpl. lia.
Qed.

Lemma concat_chunks {A} (l : list A) : concat (chunks l) = l.
Proof.
  induction l as [|l Hl IH] using chunk_ind; [done|].
  rewrite chunks_unfold by done. simpl. rewrite IH. apply take_drop.
Qed.

Lemma chunks_lookup {A} (l : list A) k chunk :
  chunks l !! k = Some chunk →
  chunk = take limit (drop (k * limit) l) ∧ (k * limit < length l)%nat.
Proof.
  unfold chunks. rewrite list_lookup_fmap.
  intros Hk. apply fmap_Some in Hk as (k' & Hk' & ->).
  apply lookup_seq in Hk' as [-> Hlt].
  split; [apply slice_limit|].
  pose proof (Nat.div_mod_eq (length l + (limit - 1)) limit) as Hdiv.
  pose proof (Nat.mod_upper_bound (length l + (limit - 1)) limit) as Hmod.
  unfold limit in *. lia.
Qed.

Lemma chunks_lookup_Some {A} (l : list A) k :
  (k * limit < length l)%nat → chunks l !! k = Some (take limit (drop (k * limit) l)).
Proof.
  intros Hk. unfold chunks. rewrite list_lookup_fmap.
  rewrite (lookup_seq_lt _ _ k); [simpl; by rewrite slice_limit|].
  pose proof (Nat.div_mod_eq (length l + (limit - 1)) limit) as Hdiv.
  pose proof (Nat.mod_upper_bound (length l + (limit - 1)) limit) as Hmod.
  unfold limit in *. lia.
Qed.

Lemma chunks_fmap {A B} (f : A → B) (l : list A) :
  chunks (f <$> l) = (λ chunk : list A, f <$> chunk) <$> chunks l.
Proof.
  unfold chunks. rewrite length_fmap, <- list_fmap_compose.
  apply list_fmap_ext. intros _ k _. simpl.
  unfold slice. by rewrite fmap_take, fmap_drop.
Qed.

Lemma batch_calls_cons first x l :
  batch_calls first (x :: l) = (first, x) :: batch_calls (S first) l.
Proof.
  unfold batch_calls. rewrite imap_cons. f_equal; [f_equal; lia|].
  apply imap_ext. intros j y _. simpl. f_equal. lia.
Qed.

Lemma length_batch_calls first l : length (batch_calls first l) = length l.
Proof. apply length_imap. Qed.

Lemma batch_calls_snd first l : (batch_calls first l).*2 = l.
Proof.
  revert first. induction l as [|x l IH]; intros first; [done|].
  rewrite batch_calls_cons. simpl. by rewrite IH.
Qed.

Lemma batch_calls_take n first l :
  take n (batch_calls first l) = batch_calls first (take n l).
Proof.
  revert first l. induction n as [|n IH]; intros first [|x l]; try done.
  rewrite batch_calls_cons. simpl. by rewrite IH, batch_calls_cons.
Qed.

Lemma batch_calls_drop n first l :
  drop n (batch_calls first l) = batch_calls (first + length (take n l)) (drop n l).
Proof.
  revert first l. induction n as [|n IH]; intros first l.
  - rewrite !drop_0, take_0. simpl. by rewrite Nat.add_0_r.
  - destruct l as [|x l]; [done|].
    rewrite batch_calls_cons. simpl. rewrite IH. f_equal. lia.
Qed.

Lemma batch_calls_lookup first l n c :
  batch_calls first l !! n = Some c ↔ c.1 = (first + n)%nat ∧ l !! n = Some c.2.
Proof.
  unfold batch_calls. rewrite list_lookup_imap. destruct c as [m id]. simpl.
  destruct (l !! n) as [id'|]; simpl; naive_solver.
Qed.

Lemma batch_calls_take_drop n first l :
  batch_calls first l
  = batch_calls first (take n l) ++ batch_calls (first + length (take n l)) (drop n l).
Proof. by rewrite <- batch_calls_take, <- batch_calls_drop, take_drop. Qed.

Lemma classify_at pre x suf acc result :
  classify (pre ++ x :: suf) acc ((length pre + 0)%nat, result)
  = match result with
    | Fulfilled _ => {| succeeded := succeeded acc ++ [x]; failed := failed acc |}
    | Rejected reason =>
        {| succeeded := succeeded acc;
           failed := failed acc
                     ++ [{| Failed.id := x; Failed.error := failure_text reason |}] |}
    end.
Proof.
  unfold classify. by rewrite Nat.add_0_r, list_lookup_middle.
Qed.

Lemma classify_fold api suf : ∀ first pre acc,
  fold_left (classify (pre ++ suf))
    (imap (λ j r, ((length pre + j)%nat, r))
          ((λ c, Api.deleteSession api c.1 c.2) <$> batch_calls first suf))
    acc
  = {| succeeded := succeeded acc ++ fulfilled_ids api (batch_calls first suf);
       failed := failed acc ++ rejected_entries api (batch_calls first suf) |}.
Proof.
  induction suf as [|x suf IH]; intros first pre acc.
  - destruct acc. simpl. by rewrite !app_nil_r.
  - rewrite batch_calls_cons, fmap_cons, imap_cons.
    cbn [fold_left]. rewrite classify_at.
    rewrite (imap_ext _ (λ j r, ((length (pre ++ [x]) + j)%nat, r)));
      [|intros j r _; simpl; rewrite length_app; simpl; f_equal; lia].
    rewrite (cons_middle x pre suf), app_assoc, IH.
    unfold fulfilled_ids, rejected_entries. cbn [omap list_omap fst snd].
    destruct (Api.deleteSession api first x); simpl; by rewrite <- !app_assoc.
Qed.

Lemma run_batch_eq api batch st :
  run_batch api batch st
  = {| result_so_far :=
         {| succeeded := succeeded (result_so_far st)
                         ++ fulfilled_ids api (batch_calls (calls_made st) batch);
            failed := failed (result_so_far st)
                      ++ rejected_entries api (batch_calls (calls_made st) batch) |};
       calls_made := (calls_made st + length batch)%nat;
       trace := trace st ++ batch_events api (batch_calls (calls_made st) batch) |}.
Proof.
  unfold run_batch. f_equal.
  apply (classify_fold api batch (calls_made st) []).
Qed.

Lemma fold_run_batch api l : ∀ st,
  fold_left (λ st batch, run_batch api batch st) (chunks l) st
  = {| result_so_far :=
         {| succeeded := succeeded (result_so_far st)
                         ++ fulfilled_ids api (batch_calls (calls_made st) l);
            failed := failed (result_so_far st)
                      ++ rejected_entries api (batch_calls (calls_made st) l) |};
       calls_made := (calls_made st + length l)%nat;
       trace := trace st
                ++ concat (batch_events api <$> chunks (batch_calls (calls_made st) l)) |}.
Proof.
  induction l as [|l Hl IH] using chunk_ind; intros st.
  - destruct st as [[] ? ?]. simpl. by rewrite !app_nil_r, Nat.add_0_r.
  - rewrite chunks_unfold by done. cbn [fold_left].
    rewrite IH, run_batch_eq. cbn [result_so_far calls_made trace succeeded failed].
    rewrite (chunks_unfold (batch_calls _ l))
      by (intros Hnil; apply (f_equal length) in Hnil;
          rewrite length_batch_calls in Hnil; by destruct l).
    rewrite batch_calls_take, batch_calls_drop.
    rewrite (batch_calls_take_drop limit (calls_made st) l).
    unfold fulfilled_ids, rejected_entries. rewrite !omap_app.
    rewrite fmap_cons. cbn [concat]. rewrite <- !app_assoc.
    f_equal. rewrite <- Nat.add_assoc, <- length_app, take_drop. done.
Qed.

Lemma bulk_loop_eq api ids fuel : ∀ i st,
  (length ids - i ≤ fuel)%nat →
  bulk_loop fuel api ids i st
  = fold_left (λ st batch, run_batch api batch st) (chunks (drop i ids)) st.
Proof.
  induction fuel as [|fuel IH]; intros i st Hfuel.
  - simpl. rewrite bool_decide_eq_false_2 by lia.
    by rewrite drop_ge by lia.
  - simpl. case_bool_decide as Hi.
    + rewrite chunks_unfold
        by (intros Hnil; apply (f_equal length) in Hnil;
            rewrite length_drop in Hnil; simpl in Hnil; lia).
      cbn [fold_left]. rewrite slice_limit, drop_drop.
      apply IH. unfold limit. lia.
    + by rewrite drop_ge by lia.
Qed.

(** The events and the result of a bulk deletion, in closed form. *)
Lemma bulkDelete_eq api ids :
  bulkDelete (Some api) ids
  = (concat (batch_events api <$> chunks (numbered ids)),
     Fulfilled {| succeeded := fulfilled_ids api (numbered ids);
                  failed := rejected_entries api (numbered ids) |}).
Proof.
  unfold bulkDelete. rewrite bulk_loop_eq by lia.
  rewrite drop_0, fold_run_batch. done.
Qed.

(** ** [Array.prototype.sort] *)

Section ArraySortFacts.
Context {A : Type} (comparefn : A → A → Number).

Lemma sort_insert_perm x l : sort_insert comparefn x l ≡ₚ x :: l.
Proof.
  induction l as [|y l IH]; simpl; [done|].
  destruct (comes_after comparefn x y); [|done].
  rewrite IH. apply Permutation_swap.
Qed.

Lemma array_sort_perm l : array_sort comparefn l ≡ₚ l.
Proof.
  induction l as [|x l IH]; simpl; [done|].
  by rewrite sort_insert_perm, IH.
Qed.

(** A comparator that agrees with a transitive relation [R] on the elements
    that satisfy [P] (an element that need not come after another is
    related to it, one that has to come after it is related from it) sorts
    lists of such elements by [R]. *)
Context (P : A → Prop) (R : A → A → Prop) `{!Transitive R}.
Hypothesis not_after : ∀ x y, P x → P y → comes_after comparefn x y = false → R x y.
Hypothesis after : ∀ x y, P x → P y → comes_after comparefn x y = true → R y x.

Lemma sort_insert_sorted x l :
  P x → Forall P l →
  StronglySorted R l → StronglySorted R (sort_insert comparefn x l).
Proof.
  intros Hx HP Hsorted. induction Hsorted as [|y l Hl IH Hy]; simpl.
  - repeat constructor.
  - apply Forall_cons in HP as [HPy HPl].
    destruct (comes_after comparefn x y) eqn:E.
    + constructor; [by apply IH|].
      rewrite sort_insert_perm. constructor; [by apply after|done].
    + constructor; [by constructor|].
      constructor; [by apply not_after|].
      eapply Forall_impl; [exact Hy|].
      intros z Hz. etrans; [by apply not_after|done].
Qed.

Lemma array_sort_sorted l : Forall P l → StronglySorted R (array_sort comparefn l).
Proof.
  induction l as [|x l IH]; simpl; [constructor|].
  intros [Hx Hl]%Forall_cons.
  apply sort_insert_sorted; [done| |by apply IH].
  by rewrite array_sort_perm.
Qed.
End ArraySortFacts.

Lemma completion_order_perm api calls : completion_order api calls ≡ₚ calls.
Proof. apply array_sort_perm. Qed.

Lemma chunk_trace_batch_events api chunk : chunk_trace api chunk (batch_events api chunk).
Proof. exists (completion_order api chunk). split; [apply completion_order_perm|done]. Qed.

Lemma calls_of_app events events' :
  calls_of (events ++ events') = calls_of events ++ calls_of events'.
Proof. apply omap_app. Qed.

Lemma calls_of_called calls : calls_of (called <$> calls) = calls.
Proof.
  induction calls as [|[n id] calls IH]; [done|].
  rewrite fmap_cons. change (calls_of (called (n, id) :: (called <$> calls)))
    with ((n, id) :: calls_of (called <$> calls)).
  by rewrite IH.
Qed.

Lemma calls_of_settled api calls : calls_of (settled api <$> calls) = [].
Proof. induction calls as [|[n id] calls IH]; [done|]. by rewrite fmap_cons. Qed.

Lemma calls_of_batch_events api chunk : calls_of (batch_events api chunk) = chunk.
Proof.
  unfold batch_events.
  by rewrite calls_of_app, calls_of_called, calls_of_settled, app_nil_r.
Qed.

Lemma calls_of_concat api cs :
  calls_of (concat (batch_events api <$> cs)) = concat cs.
Proof.
  induction cs as [|chunk cs IH]; [done|].
  rewrite fmap_cons. simpl. by rewrite calls_of_app, IH, calls_of_batch_events.
Qed.

Lemma settles_before_call_in_chunks api cs j k chunk chunk' c c' :
  (j < k)%nat → cs !! j = Some chunk → cs !! k = Some chunk' →
  c ∈ chunk → c' ∈ chunk' →
  settles_before_call api (concat (batch_events api <$> cs)) c c'.
Proof.
  intros Hjk Hj Hk Hc Hc'.
  assert (drop (S j) cs !! (k - S j)%nat = Some chunk') as Hk'.
  { rewrite lookup_drop. rewrite <- Hk. f_equal. lia. }
  rewrite <- (take_drop_middle cs j chunk Hj).
  rewrite <- (take_drop_middle _ _ chunk' Hk').
  set (cs1 := take j cs). set (cs2 := take (k - S j) (drop (S j) cs)).
  set (cs3 := drop (S (k - S j)) (drop (S j) cs)).
  rewrite <- (completion_order_perm api chunk) in Hc.
  apply list_elem_of_split in Hc as (o1 & o2 & Ho).
  apply list_elem_of_split in Hc' as (p1 & p2 & ->).
  unfold settles_before_call.
  exists (concat (batch_events api <$> cs1) ++ (called <$> chunk) ++ (settled api <$> o1)),
         ((settled api <$> o2) ++ concat (batch_events api <$> cs2) ++ (called <$> p1)),
         ((called <$> p2) ++ (settled api <$> completion_order api (p1 ++ c' :: p2))
          ++ concat (batch_events api <$> cs3)).
  repeat first [rewrite fmap_app | rewrite fmap_cons
               | rewrite concat_app | rewrite concat_cons].
  unfold batch_events at 2 4. rewrite Ho.
  repeat first [rewrite fmap_app | rewrite fmap_cons].
  by rewrite <- !app_assoc.
Qed.

Lemma chunks_numbered ids :
  (λ chunk : list (nat * string), chunk.*2) <$> chunks (numbered ids) = chunks ids.
Proof.
  rewrite <- chunks_fmap. unfold numbered. by rewrite batch_calls_snd.
Qed.

Lemma chunks_twelve {A} (l : list A) :
  length l = 12%nat → length <$> chunks l = [5; 5; 2]%nat.
Proof.
  intros Hlen.
  do 13 (destruct l as [|? l]; [try discriminate Hlen|]); [reflexivity|discriminate Hlen].
Qed.

(** C3: the ids are cut into consecutive chunks of at most 5 in input order
    (12 ids give chunks of sizes 5, 5, 2); the events at the API client are
    those of the chunks one after the other, each chunk making all its
    calls and then seeing all of them settle; so every call of a chunk has
    settled before a call of a later chunk is made; and every id is called,
    whatever the results of the calls are. *)
Theorem bulk_delete_chunks_in_sequence api ids :
  let calls := numbered ids in
  let events := (bulkDelete (Some api) ids).1 in
  concat (chunks ids) = ids
  ∧ (∀ k chunk, chunks ids !! k = Some chunk →
       chunk = take 5 (drop (k * 5) ids) ∧ (0 < length chunk ≤ 5)%nat)
  ∧ (∀ k, is_Some (chunks ids !! S k) → length <$> chunks ids !! k = Some 5%nat)
  ∧ (length ids = 12%nat → length <$> chunks ids = [5; 5; 2]%nat)
  ∧ (λ chunk : list (nat * string), chunk.*2) <$> chunks calls = chunks ids
  ∧ (∃ segments,
       events = concat segments
       ∧ Forall2 (chunk_trace api) (chunks calls) segments)
  ∧ (∀ j k chunk chunk' c c',
       (j < k)%nat →
       chunks calls !! j = Some chunk → chunks calls !! k = Some chunk' →
       c ∈ chunk → c' ∈ chunk' →
       settles_before_call api events c c')
  ∧ calls_of events = calls.
Proof.
  cbv zeta. rewrite bulkDelete_eq. cbn [fst].
  split_and!.
  - apply concat_chunks.
  - intros k chunk Hk. apply chunks_lookup in Hk as [-> Hlt].
    split; [done|]. rewrite length_take, length_drop. unfold limit in *. lia.
  - intros k [chunk Hk]. apply chunks_lookup in Hk as [_ Hlt].
    rewrite chunks_lookup_Some by (unfold limit in *; lia). simpl.
    rewrite length_take, length_drop. f_equal. unfold limit in *. lia.
  - apply chunks_twelve.
  - apply chunks_numbered.
  - exists (batch_events api <$> chunks (numbered ids)). split; [done|].
    apply Forall2_fmap_r, Forall_Forall2_diag, Forall_forall.
    intros chunk _. apply chunk_trace_batch_events.
  - intros j k chunk chunk' c c'. apply settles_before_call_in_chunks.
  - by rewrite calls_of_concat, concat_chunks.
Qed.

Lemma bulk_delete_chunks_in_sequence_witness :
  let api := {| Api.deleteSession := λ n _, if Nat.even n then Rejected JsNull else Fulfilled ();
                Api.settlesAt := λ n _, (20 - n)%nat;
                Api.setPermissionMode := λ _ _, Fulfilled () |} in
  let ids := ["a"; "b"; "c"; "d"; "e"; "f"; "g"; "h"; "i"; "j"; "k"; "l"] in
  length <$> chunks ids = [5; 5; 2]%nat
  ∧ settles_before_call api (bulkDelete (Some api) ids).1 (0%nat, "a") (5%nat, "f").
Proof.
  intros api ids.
  pose proof (bulk_delete_chunks_in_sequence api ids) as (_ & _ & _ & Hsizes & _ & _ & Horder & _).
  split; [by apply Hsizes|].
  apply (Horder 0%nat 1%nat [(0, "a"); (1, "b"); (2, "c"); (3, "d"); (4, "e")]%nat
           [(5, "f"); (6, "g"); (7, "h"); (8, "i"); (9, "j")]%nat);
    [lia|reflexivity|reflexivity|set_solver|set_solver].
Defined.

Lemma fulfilled_ids_sublist api first ids :
  fulfilled_ids api (batch_calls first ids) `sublist_of` ids.
Proof.
  revert first. induction ids as [|id ids IH]; intros first; [done|].
  rewrite batch_calls_cons. unfold fulfilled_ids in *. cbn [omap list_omap fst snd].
  destruct (Api.deleteSession api first id); simpl.
  - apply sublist_skip, IH.
  - apply sublist_cons, IH.
Qed.

Lemma rejected_entries_sublist api first ids :
  Failed.id <$> rejected_entries api (batch_calls first ids) `sublist_of` ids.
Proof.
  revert first. induction ids as [|id ids IH]; intros first; [done|].
  rewrite batch_calls_cons. unfold rejected_entries in *. cbn [omap list_omap fst snd].
  destruct (Api.deleteSession api first id); simpl.
  - apply sublist_cons, IH.
  - apply sublist_skip, IH.
Qed.

(** C6 (as the code has it): [succeeded] and [failed] list the ids in input
    order: the ids whose calls are fulfilled, respectively the entries of
    the ids whose calls are rejected, in the order of the calls. The times
    at which the calls settle have no influence on the result. *)
Theorem bulk_delete_result_in_input_order api ids :
  ∃ result,
    (bulkDelete (Some api) ids).2 = Fulfilled result
    ∧ succeeded result = fulfilled_ids api (numbered ids)
    ∧ failed result = rejected_entries api (numbered ids)
    ∧ succeeded result `sublist_of` ids
    ∧ Failed.id <$> failed result `sublist_of` ids
    ∧ (∀ api',
         (∀ n id, Api.deleteSession api' n id = Api.deleteSession api n id) →
         (bulkDelete (Some api') ids).2 = Fulfilled result).
Proof.
  eexists. rewrite bulkDelete_eq. cbn [snd]. split; [reflexivity|].
  cbn [succeeded failed]. split_and!; try done.
  - apply fulfilled_ids_sublist.
  - apply rejected_entries_sublist.
  - intros api' Hsame. rewrite bulkDelete_eq. cbn [snd]. do 2 f_equal.
    + apply list_omap_ext, Forall2_same_length_lookup_2; [done|].
      intros n c c' Hc Hc'. rewrite Hc in Hc'. injection Hc' as <-.
      by rewrite Hsame.
    + apply list_omap_ext, Forall2_same_length_lookup_2; [done|].
      intros n c c' Hc Hc'. rewrite Hc in Hc'. injection Hc' as <-.
      by rewrite Hsame.
Qed.

Example second_call_settles_first :
  bulkDelete
    (Some {| Api.deleteSession := λ _ _, Fulfilled ();
             Api.settlesAt := λ n _, (2 - n)%nat;
             Api.setPermissionMode := λ _ _, Fulfilled () |})
    ["a"; "b"]
  = ([Called 0 "a"; Called 1 "b";
      Settled 1 "b" (Fulfilled ()); Settled 0 "a" (Fulfilled ())],
     Fulfilled {| succeeded := ["a"; "b"]; failed := [] |}).
Proof. reflexivity. Qed.

(** C6, as stated, fails: when the second call of a batch settles before
    the first one and both are fulfilled, [succeeded] still lists the first
    id first. *)
Lemma bulk_delete_result_not_in_completion_order :
  ¬ (∀ api ids result,
       (bulkDelete (Some api) ids).2 = Fulfilled result →
       succeeded result = settled_with is_fulfilled (bulkDelete (Some api) ids).1
       ∧ Failed.id <$> failed result
         = settled_with (λ r, negb (is_fulfilled r)) (bulkDelete (Some api) ids).1).
Proof.
  intros H.
  specialize (H {| Api.deleteSession := λ _ _, Fulfilled ();
                   Api.settlesAt := λ n _, (2 - n)%nat;
                   Api.setPermissionMode := λ _ _, Fulfilled () |}
                ["a"; "b"] _ eq_refl).
  destruct H as [H _]. vm_compute in H. discriminate H.
Qed.




(** ** Grouping *)

Section JsMapFacts.
Context {V : Type}.
Implicit Types (m : JsMap.t V) (k : string) (v : V).

Lemma map_has_true m k : JsMap.has m k = true ↔ k ∈ m.*1.
Proof. unfold JsMap.has. by rewrite bool_decide_eq_true. Qed.

Lemma map_set_absent m k v : k ∉ m.*1 → JsMap.set k v m = m ++ [(k, v)].
Proof.
  induction m as [|[k' v'] m IH]; simpl; [done|].
  intros Hk. apply not_elem_of_cons in Hk as [Hne Hk].
  destruct (decide (k' = k)); [congruence|]. by rewrite IH.
Qed.

Lemma map_present_split m k :
  k ∈ m.*1 → ∃ m1 v m2, m = m1 ++ (k, v) :: m2 ∧ k ∉ m1.*1.
Proof.
  induction m as [|[k' v'] m IH]; simpl.
  - intros Hk. by apply elem_of_nil in Hk.
  - intros Hk. destruct (decide (k' = k)) as [->|Hne].
    + exists [], v', m. split; [done|]. apply not_elem_of_nil.
    + apply elem_of_cons in Hk as [Hk|Hk]; [congruence|].
      destruct (IH Hk) as (m1 & v & m2 & -> & Hm1).
      exists ((k', v') :: m1), v, m2. split; [done|].
      simpl. apply not_elem_of_cons. split; [congruence|done].
Qed.

Lemma map_get_split m1 m2 k v :
  k ∉ m1.*1 → JsMap.get (m1 ++ (k, v) :: m2) k = Some v.
Proof.
  induction m1 as [|[k' v'] m1 IH]; simpl.
  - intros _. by destruct (decide (k = k)).
  - intros Hk. apply not_elem_of_cons in Hk as [Hne Hk].
    destruct (decide (k' = k)); [congruence|]. by apply IH.
Qed.

Lemma map_set_split m1 m2 k v v' :
  k ∉ m1.*1 → JsMap.set k v' (m1 ++ (k, v) :: m2) = m1 ++ (k, v') :: m2.
Proof.
  induction m1 as [|[k' v''] m1 IH]; simpl.
  - intros _. by destruct (decide (k = k)).
  - intros Hk. apply not_elem_of_cons in Hk as [Hne Hk].
    destruct (decide (k' = k)); [congruence|]. by rewrite IH.
Qed.
End JsMapFacts.

(** What one step of the grouping loop does to the map: a session with a
    new key opens a group at the end, a session with a known key is pushed
    to the group of its key, which stays in place. *)
Lemma add_to_groups_cases groups session :
  ((groupKey session ∉ groups.*1)
   ∧ add_to_groups groups session = groups ++ [(groupKey session, [session])])
  ∨ (∃ m1 v m2,
       groups = m1 ++ (groupKey session, v) :: m2
       ∧ (groupKey session ∉ m1.*1)
       ∧ add_to_groups groups session
         = m1 ++ (groupKey session, v ++ [session]) :: m2).
Proof.
  unfold add_to_groups. destruct (JsMap.has groups (groupKey session)) eqn:E.
  - right. apply map_has_true, map_present_split in E as (m1 & v & m2 & -> & Hm1).
    exists m1, v, m2. split_and!; [done..|].
    by rewrite map_get_split, map_set_split.
  - left. assert (groupKey session ∉ groups.*1) as Hk.
    { rewrite <- map_has_true. congruence. }
    split; [done|].
    rewrite map_set_absent by done.
    rewrite (map_get_split groups []), (map_set_split groups []) by done.
    done.
Qed.

(** The invariant of the grouping loop: the keys are distinct, every group
    is non-empty and holds sessions of its key only, and the groups
    together hold the sessions seen so far. *)
Lemma add_to_groups_inv groups seen session :
  NoDup groups.*1 →
  Forall (λ entry, entry.2 ≠ [] ∧ Forall (λ s, groupKey s = entry.1) entry.2) groups →
  concat groups.*2 ≡ₚ seen →
  NoDup (add_to_groups groups session).*1
  ∧ Forall (λ entry, entry.2 ≠ [] ∧ Forall (λ s, groupKey s = entry.1) entry.2)
      (add_to_groups groups session)
  ∧ concat (add_to_groups groups session).*2 ≡ₚ seen ++ [session].
Proof.
  intros Hnd Hall Hperm.
  destruct (add_to_groups_cases groups session)
    as [[Hk ->]|(m1 & v & m2 & -> & Hm1 & ->)].
  - split_and!.
    + rewrite fmap_app. simpl. apply NoDup_app. split_and!; [done| |apply NoDup_singleton].
      intros k Hin ->%list_elem_of_singleton. done.
    + apply Forall_app. split; [done|].
      apply Forall_singleton. simpl. split; [done|]. by apply Forall_singleton.
    + rewrite fmap_app, concat_app. simpl. by rewrite Hperm, ?app_nil_r.
  - split_and!.
    + by rewrite fmap_app, fmap_cons in Hnd |- *.
    + apply Forall_app in Hall as [H1 H2]. apply Forall_cons in H2 as [[Hv Hkey] H2].
      simpl in *.
      apply Forall_app. split; [done|]. apply Forall_cons. split; [|done].
      simpl. split; [by destruct v|].
      apply Forall_app. split; [done|]. by apply Forall_singleton.
    + rewrite <- Hperm. rewrite !fmap_app, !fmap_cons, !concat_app. simpl.
      rewrite <- !app_assoc. apply Permutation_app_head.
      apply Permutation_app_head.
      apply Permutation_app_comm.
Qed.

Lemma grouping_loop_inv sessions : ∀ groups seen,
  NoDup groups.*1 →
  Forall (λ entry, entry.2 ≠ [] ∧ Forall (λ s, groupKey s = entry.1) entry.2) groups →
  concat groups.*2 ≡ₚ seen →
  let groups' := fold_left add_to_groups sessions groups in
  NoDup groups'.*1
  ∧ Forall (λ entry, entry.2 ≠ [] ∧ Forall (λ s, groupKey s = entry.1) entry.2) groups'
  ∧ concat groups'.*2 ≡ₚ seen ++ sessions.
Proof.
  induction sessions as [|session sessions IH]; intros groups seen Hnd Hall Hperm; simpl.
  - by rewrite app_nil_r.
  - destruct (add_to_groups_inv groups seen session Hnd Hall Hperm) as (Hnd' & Hall' & Hperm').
    destruct (IH _ _ Hnd' Hall' Hperm') as (? & ? & Hp).
    split_and!; [done..|]. by rewrite Hp, <- app_assoc.
Qed.

Lemma concat_perm {A} (ls ls' : list (list A)) : ls ≡ₚ ls' → concat ls ≡ₚ concat ls'.
Proof.
  induction 1 as [|l ls ls' _ IH|l l' ls|ls1 ls2 ls3 _ IH1 _ IH2]; simpl.
  - done.
  - by rewrite IH.
  - rewrite !app_assoc. apply Permutation_app_tail, Permutation_app_comm.
  - by rewrite IH1.
Qed.

Lemma elem_of_concat {A} (x : A) (ls : list (list A)) :
  x ∈ concat ls ↔ ∃ l, l ∈ ls ∧ x ∈ l.
Proof.
  induction ls as [|l ls IH]; simpl.
  - split; [intros H; by apply elem_of_nil in H|intros (l & H & _); by apply elem_of_nil in H].
  - rewrite elem_of_app, IH. split.
    + intros [H|(l' & H1 & H2)]; [exists l|exists l']; split; try done;
        [apply list_elem_of_here|by apply list_elem_of_further].
    + intros (l' & [->|H1]%elem_of_cons & H2); [by left|right; by exists l'].
Qed.

Lemma NoDup_fmap_inj {A B} (f : A → B) (l : list A) :
  NoDup (f <$> l) → ∀ x y, x ∈ l → y ∈ l → f x = f y → x = y.
Proof.
  induction l as [|z l IH]; simpl.
  - intros _ x y H. by apply elem_of_nil in H.
  - intros [Hz Hnd]%NoDup_cons x y Hx Hy Heq.
    apply elem_of_cons in Hx as [Hx|Hx]; apply elem_of_cons in Hy as [Hy|Hy]; subst.
    + done.
    + exfalso. apply Hz. rewrite Heq. apply list_elem_of_fmap. by exists y.
    + exfalso. apply Hz. rewrite <- Heq. apply list_elem_of_fmap. by exists x.
    + by apply IH.
Qed.

Lemma sessionRank_tier s : sessionRank s = tier s.
Proof.
  unfold sessionRank, tier. destruct (active s); [|done]. simpl.
  by case_bool_decide.
Qed.

Lemma tier_cases s : tier s = 0 ∨ tier s = 1 ∨ tier s = 2.
Proof.
  unfold tier. destruct (active s); simpl; [case_bool_decide|]; auto.
Qed.

#[local] Instance session_before_trans : Transitive session_before.
Proof. intros a b c. unfold session_before. lia. Qed.

Lemma compareSessions_not_after a b :
  comes_after compareSessions a b = false → session_before a b.
Proof.
  unfold comes_after, compareSessions, session_before.
  rewrite !sessionRank_tier. case_bool_decide; simpl; rewrite bool_decide_eq_false; lia.
Qed.

Lemma compareSessions_after a b :
  comes_after compareSessions a b = true → session_before b a.
Proof.
  unfold comes_after, compareSessions, session_before.
  rewrite !sessionRank_tier. case_bool_decide; simpl; rewrite bool_decide_eq_true; lia.
Qed.

Lemma sorted_sessions l : StronglySorted session_before (array_sort compareSessions l).
Proof.
  apply (array_sort_sorted compareSessions (λ _, True) session_before).
  - intros x y _ _. apply compareSessions_not_after.
  - intros x y _ _. apply compareSessions_after.
  - by apply Forall_forall.
Qed.

#[local] Instance group_before_trans : Transitive group_before.
Proof.
  intros g h i (m & n & Hg & Hh & H1) (n' & p & Hh' & Hi & H2).
  rewrite Hh in Hh'. injection Hh' as <-.
  exists m, p. split_and!; [done..|].
  destruct H1 as [[? ?]|[? ?]], H2 as [[? ?]|[? ?]].
  - congruence.
  - left. split; congruence.
  - left. split; congruence.
  - right. split; [congruence|lia].
Qed.

Lemma compareGroups_not_after g h :
  has_latest g → has_latest h →
  comes_after compareGroups g h = false → group_before g h.
Proof.
  intros [m Hm] [n Hn]. unfold comes_after, compareGroups, group_before.
  rewrite Hm, Hn. intros H. exists m, n. split_and!; [done..|].
  destruct (hasActiveSession g), (hasActiveSession h); simpl in *;
    try (left; done); try discriminate H;
    right; (split; [done|]); apply bool_decide_eq_false in H; lia.
Qed.

Lemma compareGroups_after g h :
  has_latest g → has_latest h →
  comes_after compareGroups g h = true → group_before h g.
Proof.
  intros [m Hm] [n Hn]. unfold comes_after, compareGroups, group_before.
  rewrite Hm, Hn. intros H. exists n, m. split_and!; [done..|].
  destruct (hasActiveSession g), (hasActiveSession h); simpl in *;
    try (left; done); try discriminate H;
    right; (split; [done|]); apply bool_decide_eq_true in H; lia.
Qed.

Lemma fold_max_spec l : ∀ a,
  (a ≤ fold_left Z.max l a)%Z
  ∧ Forall (λ y, (y ≤ fold_left Z.max l a)%Z) l
  ∧ (fold_left Z.max l a = a ∨ fold_left Z.max l a ∈ l).
Proof.
  induction l as [|y l IH]; intros a; cbn [fold_left].
  - split_and!; [lia|constructor|by left].
  - destruct (IH (Z.max a y)) as (Hle & Hall & Hin).
    split_and!; [lia| |].
    + constructor; [lia|done].
    + destruct Hin as [Hin|Hin]; [|right; by apply list_elem_of_further].
      rewrite Hin.
      destruct (Z.max_spec a y) as [[_ Hm]|[_ Hm]]; rewrite Hm.
      * right. apply list_elem_of_here.
      * by left.
Qed.

Lemma fold_latest l : ∀ a,
  fold_left
    (λ max s, if num_gt (Num (updatedAt s)) max then Num (updatedAt s) else max)
    l (Num a)
  = Num (fold_left Z.max (updatedAt <$> l) a).
Proof.
  induction l as [|s l IH]; intros a; [done|].
  rewrite fmap_cons. cbn [fold_left num_gt].
  case_bool_decide.
  - rewrite IH. by rewrite Z.max_r by lia.
  - rewrite IH. by rewrite Z.max_l by lia.
Qed.

Lemma makeGroup_latest k v :
  v ≠ [] →
  ∃ m, latestUpdatedAt (makeGroup (k, v)) = Num m
       ∧ (∃ s, s ∈ v ∧ updatedAt s = m)
       ∧ ∀ s, s ∈ v → (updatedAt s ≤ m)%Z.
Proof.
  destruct v as [|s v]; [done|]. intros _. simpl.
  rewrite fold_latest.
  destruct (fold_max_spec (updatedAt <$> v) (updatedAt s)) as (Hle & Hall & Hin).
  eexists. split; [reflexivity|]. split.
  - destruct Hin as [Hin|Hin].
    + exists s. split; [apply list_elem_of_here|done].
    + apply list_elem_of_fmap in Hin as (s' & Hs' & Hin).
      exists s'. split; [by apply list_elem_of_further|done].
  - intros s' [->|Hs']%elem_of_cons; [done|].
    rewrite Forall_forall in Hall. apply Hall, list_elem_of_fmap. by exists s'.
Qed.

Lemma makeGroup_hasActive k v :
  hasActiveSession (makeGroup (k, v)) = true ↔ ∃ s, s ∈ v ∧ active s = true.
Proof.
  simpl. rewrite existsb_exists.
  split; intros (s & Hs & Ha); exists s; by rewrite list_elem_of_In in *.
Qed.

(** A group made from a non-empty entry of the map. *)
Lemma makeGroup_spec k v :
  v ≠ [] →
  let g := makeGroup (k, v) in
  directory g = k
  ∧ sessions g ≡ₚ v
  ∧ StronglySorted session_before (sessions g)
  ∧ (hasActiveSession g = true ↔ contains_active g)
  ∧ ∃ m, latestUpdatedAt g = Num m ∧ latest_of g m.
Proof.
  intros Hv. cbv zeta.
  assert (sessions (makeGroup (k, v)) ≡ₚ v) as Hperm by apply array_sort_perm.
  split_and!; [done|done|apply sorted_sessions| |].
  - unfold contains_active. rewrite makeGroup_hasActive.
    by setoid_rewrite Hperm.
  - destruct (makeGroup_latest k v Hv) as (m & Hm & Hex & Hmax).
    exists m. split; [done|]. unfold latest_of. by setoid_rewrite Hperm.
Qed.

Lemma concat_sessions_makeGroup groups :
  concat (sessions <$> (makeGroup <$> groups)) ≡ₚ concat groups.*2.
Proof.
  induction groups as [|[k v] groups IH]; [done|].
  rewrite !fmap_cons, !concat_cons, IH.
  apply Permutation_app_tail, array_sort_perm.
Qed.

Lemma directory_makeGroup groups : directory <$> (makeGroup <$> groups) = groups.*1.
Proof.
  rewrite <- list_fmap_compose. apply list_fmap_ext. by intros _ [k v] _.
Qed.

Lemma groupKey_cases s :
  (∀ p, chain (chain (metadata s) worktree) basePath = Some p → groupKey s = p)
  ∧ (∀ p, chain (chain (metadata s) worktree) basePath = None →
          chain (metadata s) path = Some p → groupKey s = p)
  ∧ (chain (chain (metadata s) worktree) basePath = None →
     chain (metadata s) path = None → groupKey s = "Other").
Proof.
  unfold groupKey. split_and!.
  - by intros p ->.
  - by intros p -> ->.
  - by intros -> ->.
Qed.

(** The groups before the final sort: one entry of the map each. *)
Lemma grouped_entries input :
  let groups := fold_left add_to_groups input JsMap.empty in
  NoDup groups.*1
  ∧ Forall (λ entry, entry.2 ≠ [] ∧ Forall (λ s, groupKey s = entry.1) entry.2) groups
  ∧ concat groups.*2 ≡ₚ input.
Proof.
  apply (grouping_loop_inv input JsMap.empty []); [apply NoDup_nil_2|constructor|done].
Qed.

Lemma group_of_entry input g :
  g ∈ groupSessionsByDirectory input →
  ∃ k v, g = makeGroup (k, v) ∧ v ≠ [] ∧ Forall (λ s, groupKey s = k) v.
Proof.
  unfold groupSessionsByDirectory, JsMap.entries.
  rewrite array_sort_perm. intros ([k v] & -> & Hin)%list_elem_of_fmap.
  destruct (grouped_entries input) as (_ & Hall & _).
  rewrite Forall_forall in Hall. destruct (Hall _ Hin) as [Hv Hk].
  by exists k, v.
Qed.

(** C2: the groups partition the sessions by key (worktree base path, else
    path, else "Other"): the keys of the groups are distinct, a group holds
    sessions of its key only, and the groups together hold the sessions of
    the input, each as often as the input does, so that every session is
    in exactly one group. [hasActiveSession] and [latestUpdatedAt] are what
    their names say. Within a group the sessions are ordered by tier and,
    within a tier, by descending [updatedAt]; the groups are ordered with
    those that have an active session first and, among groups of the same
    kind, by descending [latestUpdatedAt]. *)
Theorem grouping_partitions_and_orders input :
  let groups := groupSessionsByDirectory input in
  (∀ s,
     (∀ p, chain (chain (metadata s) worktree) basePath = Some p → groupKey s = p)
     ∧ (∀ p, chain (chain (metadata s) worktree) basePath = None →
             chain (metadata s) path = Some p → groupKey s = p)
     ∧ (chain (chain (metadata s) worktree) basePath = None →
        chain (metadata s) path = None → groupKey s = "Other"))
  ∧ NoDup (directory <$> groups)
  ∧ (∀ g, g ∈ groups →
       sessions g ≠ [] ∧ ∀ s, s ∈ sessions g → groupKey s = directory g)
  ∧ concat (sessions <$> groups) ≡ₚ input
  ∧ (∀ s, s ∈ input →
       ∃ g, g ∈ groups ∧ s ∈ sessions g
            ∧ ∀ g', g' ∈ groups → s ∈ sessions g' → g' = g)
  ∧ (∀ g, g ∈ groups →
       (hasActiveSession g = true ↔ contains_active g)
       ∧ ∃ m, latestUpdatedAt g = Num m ∧ latest_of g m)
  ∧ (∀ g, g ∈ groups → StronglySorted session_before (sessions g))
  ∧ StronglySorted group_before groups.
Proof.
  cbv zeta.
  destruct (grouped_entries input) as (Hnd & Hall & Hperm).
  assert (groupSessionsByDirectory input
          ≡ₚ makeGroup <$> fold_left add_to_groups input JsMap.empty) as Hsort
    by apply array_sort_perm.
  assert (NoDup (directory <$> groupSessionsByDirectory input)) as Hkeys.
  { by rewrite Hsort, directory_makeGroup. }
  assert (∀ g, g ∈ groupSessionsByDirectory input →
            sessions g ≠ [] ∧ ∀ s, s ∈ sessions g → groupKey s = directory g) as Hmembers.
  { intros g (k & v & -> & Hv & Hk)%group_of_entry.
    destruct (makeGroup_spec k v Hv) as (Hdir & Hp & _).
    split.
    - intros Hnil. rewrite Hnil in Hp. by apply Permutation_nil in Hp.
    - intros s Hs. rewrite Hp in Hs. rewrite Forall_forall in Hk.
      rewrite Hdir. by apply Hk. }
  assert (concat (sessions <$> groupSessionsByDirectory input) ≡ₚ input) as Hall_sessions.
  { rewrite (concat_perm _ _ (fmap_Permutation sessions _ _ Hsort)).
    by rewrite concat_sessions_makeGroup. }
  split_and!.
  - apply groupKey_cases.
  - done.
  - done.
  - done.
  - intros s Hs. rewrite <- Hall_sessions in Hs.
    apply elem_of_concat in Hs as (l & (g & -> & Hg)%list_elem_of_fmap & Hs).
    exists g. split_and!; [done..|].
    intros g' Hg' Hs'.
    apply (NoDup_fmap_inj directory _ Hkeys); [done..|].
    rewrite <- (proj2 (Hmembers g Hg) s Hs).
    by rewrite <- (proj2 (Hmembers g' Hg') s Hs').
  - intros g (k & v & -> & Hv & _)%group_of_entry.
    by destruct (makeGroup_spec k v Hv) as (_ & _ & _ & ? & ?).
  - intros g (k & v & -> & Hv & _)%group_of_entry.
    by destruct (makeGroup_spec k v Hv) as (_ & _ & ? & _).
  - unfold groupSessionsByDirectory.
    apply (array_sort_sorted compareGroups has_latest group_before).
    + apply compareGroups_not_after.
    + apply compareGroups_after.
    + apply Forall_fmap, Forall_forall. intros [k v] Hin.
      rewrite Forall_forall in Hall. destruct (Hall _ Hin) as [Hv _].
      destruct (makeGroup_latest k v Hv) as (m & Hm & _). by exists m.
Qed.

(** ** The statements at concrete inputs *)

Example display_names :
  getGroupDisplayName "/home/u/proj/worktrees/feature-x" = "worktrees/feature-x"
  ∧ getGroupDisplayName "Other" = "Other"
  ∧ getGroupDisplayName "solo" = "solo".
Proof. by split_and!. Qed.

Example three_tiers_in_one_group :
  let session id active updatedAt pending :=
    {| id := id; active := active; updatedAt := updatedAt;
       pendingRequestsCount := pending;
       metadata := Some {| path := Some "/p"; worktree := None; flavor := None |} |} in
  let A := session "A" true 100 2 in
  let B := session "B" true 200 0 in
  let C := session "C" false 300 0 in
  sessions <$> groupSessionsByDirectory [C; B; A] = [[A; B; C]]
  ∧ sessions <$> groupSessionsByDirectory [B; A; C] = [[A; B; C]].
Proof. by split. Qed.

Example partial_failure :
  let api := {| Api.deleteSession :=
                  λ _ id, if bool_decide (id = "c" ∨ id = "f")
                          then Rejected (Error "gone") else Fulfilled ();
                Api.settlesAt := λ _ _, 0%nat;
                Api.setPermissionMode := λ _ _, Fulfilled () |} in
  let c := {| selectionState :=
                {| selectionMode := true;
                   selectedIds := ["a"; "b"; "c"; "d"; "e"; "f"] |};
              bulkDeleteDialogOpen := true;
              toasts := [] |} in
  selectionState (handleConfirmBulkDelete "en" (Some api) c).2
  = {| selectionMode := true; selectedIds := ["c"; "f"] |}.
Proof. reflexivity. Qed.

Lemma bulk_delete_result_postconditions_witness :
  let result := {| succeeded := ["a"];
                   failed := [{| Failed.id := "b"; Failed.error := "gone" |}] |} in
  let c := {| selectionState := {| selectionMode := true; selectedIds := ["a"; "b"] |};
              bulkDeleteDialogOpen := true;
              toasts := [] |} in
  JsSet.ids (selectedIds (selectionState (applyBulkDeleteResult "en" result c))) = {["b"]}
  ∧ selectionMode (selectionState (applyBulkDeleteResult "en" result c)) = true.
Proof.
  intros result c.
  destruct (bulk_delete_result_postconditions "en" result c) as (_ & _ & Hmixed).
  destruct Hmixed as [Hids Hmode]; [done|done|].
  split; [|exact Hmode].
  rewrite Hids. simpl. apply set_eq. intros x. set_solver.
Defined.


Lemma reconcile_keeps_exactly_selectable_witness :
  let session id active :=
    {| id := id; active := active; updatedAt := 0; pendingRequestsCount := 0;
       metadata := None |} in
  let state := {| selectionMode := true; selectedIds := ["x"; "y"] |} in
  JsSet.ids (selectedIds (reconcileSelection [session "x" false; session "y" true] state))
  = {["x"]}.
Proof.
  intros session state.
  destruct (reconcile_keeps_exactly_selectable
              [session "x" false; session "y" true] state) as (_ & _ & _ & H).
  apply (H "x" "y").
  - unfold JsSet.ids. simpl. apply set_eq. intros z. set_solver.
  - unfold selectable. simpl. set_solver.
  - unfold selectable. simpl. set_solver.
Defined.


Lemma toggle_flips_membership_in_any_mode_witness :
  ("a" ∉ JsSet.ids (selectedIds (selectionReducer
                                   {| selectionMode := true; selectedIds := ["a"; "b"] |}
                                   (TOGGLE_SESSION "a"))))
  ∧ "b" ∈ JsSet.ids (selectedIds (selectionReducer
                                    {| selectionMode := true; selectedIds := ["a"; "b"] |}
                                    (TOGGLE_SESSION "a"))).
Proof.
  destruct (toggle_flips_membership_in_any_mode
              {| selectionMode := true; selectedIds := ["a"; "b"] |} "a")
    as (_ & Hflip & Hkeep & _).
  split.
  - intros Hin. apply Hflip in Hin. apply Hin.
    unfold JsSet.ids. simpl. set_solver.
  - apply (Hkeep "b"); [done|]. unfold JsSet.ids. simpl. set_solver.
Defined.

Lemma grouping_partitions_and_orders_witness :
  let session id active updatedAt key :=
    {| id := id; active := active; updatedAt := updatedAt; pendingRequestsCount := 0;
       metadata := Some {| path := key; worktree := None; flavor := None |} |} in
  let input := [session "a" false 900 (Some "/p"); session "b" true 100 (Some "/q");
                session "c" false 500 None; session "d" false 950 (Some "/p")] in
  concat (sessions <$> groupSessionsByDirectory input) ≡ₚ input
  ∧ StronglySorted group_before (groupSessionsByDirectory input)
  ∧ directory <$> groupSessionsByDirectory input = ["/q"; "/p"; "Other"].
Proof.
  intros session input.
  destruct (grouping_partitions_and_orders input) as (_ & _ & _ & Hperm & _ & _ & _ & Hsorted).
  split_and!; [exact Hperm|exact Hsorted|reflexivity].
Defined.

Lemma bulk_delete_result_in_input_order_witness :
  let api := {| Api.deleteSession :=
                  λ _ id, if bool_decide (id = "b") then Rejected JsNull else Fulfilled ();
                Api.settlesAt := λ n _, (9 - n)%nat;
                Api.setPermissionMode := λ _ _, Fulfilled () |} in
  let api' := {| Api.deleteSession :=
                   λ _ id, if bool_decide (id = "b") then Rejected JsNull else Fulfilled ();
                 Api.settlesAt := λ n _, n;
                 Api.setPermissionMode := λ _ _, Fulfilled () |} in
  (bulkDelete (Some api) ["a"; "b"; "c"]).2 = (bulkDelete (Some api') ["a"; "b"; "c"]).2.
Proof.
  intros api api'.
  destruct (bulk_delete_result_in_input_order api ["a"; "b"; "c"])
    as (result & Hresult & _ & _ & _ & _ & Hsame).
  rewrite Hresult. symmetry. apply Hsame. reflexivity.
Defined.

(** ** Supporting facts about the model *)

(** Copying a set, [new Set(s)], gives the same elements in the same order. *)
Lemma of_array_wf (s : JsSet.t) : JsSet.wf s → JsSet.of_array (JsSet.to_array s) = s.
Proof.
  unfold JsSet.wf, JsSet.of_array, JsSet.to_array, JsSet.empty.
  assert (∀ l acc, NoDup (acc ++ l) →
            fold_left (λ s x, JsSet.add x s) l acc = acc ++ l) as H.
  { induction l as [|x l IH]; intros acc Hnd; simpl; [by rewrite app_nil_r|].
    assert (JsSet.add x acc = acc ++ [x]) as ->.
    { unfold JsSet.add. destruct (JsSet.has acc x) eqn:E; [|done].
      apply has_true in E. apply NoDup_app in Hnd as (_ & Hnd & _).
      exfalso. apply (Hnd x E). apply list_elem_of_here. }
    rewrite IH; rewrite <- app_assoc; done. }
  intros Hs. by apply (H s []).
Qed.

(** The sort is stable: elements that the comparator ties with one another
    keep the order they had. *)
Section ArraySortStable.
Context {A : Type} (comparefn : A → A → Number) (P : A → Prop).

Hypothesis tied_consistent :
  ∀ x y z, P x → P y → P z → tied comparefn x y → tied comparefn x z → comes_after comparefn y z = false.

Lemma sort_insert_filter_other (p : A → Prop) `{∀ y, Decision (p y)} a l :
  ¬ p a → filter p (sort_insert comparefn a l) = filter p l.
Proof.
  intros Ha. induction l as [|y l IH]; simpl.
  - by rewrite filter_cons_False.
  - destruct (comes_after comparefn a y).
    + rewrite !filter_cons, IH. done.
    + by rewrite (filter_cons_False _ a).
Qed.

Lemma sort_insert_filter_same (p : A → Prop) `{∀ y, Decision (p y)} a l :
  p a → (∀ y, y ∈ l → p y → comes_after comparefn a y = false) →
  filter p (sort_insert comparefn a l) = a :: filter p l.
Proof.
  intros Ha. induction l as [|y l IH]; intros Hl; simpl.
  - by rewrite filter_cons_True.
  - destruct (comes_after comparefn a y) eqn:E.
    + assert (¬ p y) as Hy.
      { intros Hy. specialize (Hl y (list_elem_of_here _ _) Hy). congruence. }
      rewrite !(filter_cons_False _ y) by done.
      apply IH. intros z Hz. apply Hl. by apply list_elem_of_further.
    + by rewrite (filter_cons_True _ a).
Qed.

Lemma array_sort_stable x l :
  P x → Forall P l →
  filter (tied comparefn x) (array_sort comparefn l) = filter (tied comparefn x) l.
Proof.
  intros Hx. induction l as [|a l IH]; [done|].
  intros [Ha Hl]%Forall_cons. simpl.
  destruct (decide (tied comparefn x a)) as [Hxa|Hxa].
  - rewrite sort_insert_filter_same, filter_cons_True, IH; [done..|].
    intros y Hy Hxy. apply (tied_consistent x); try done.
    rewrite array_sort_perm in Hy. rewrite Forall_forall in Hl. by apply Hl.
  - rewrite sort_insert_filter_other, filter_cons_False, IH; done.
Qed.
End ArraySortStable.

Lemma sessions_sort_stable x l :
  filter (tied compareSessions x) (array_sort compareSessions l)
  = filter (tied compareSessions x) l.
Proof.
  apply (array_sort_stable compareSessions (λ _, True)); [|done|by apply Forall_forall].
  intros a b c _ _ _. unfold tied, comes_after, compareSessions.
  repeat case_bool_decide; simpl; rewrite ?bool_decide_eq_false; lia.
Qed.

Lemma groups_sort_stable x l :
  has_latest x → Forall has_latest l →
  filter (tied compareGroups x) (array_sort compareGroups l)
  = filter (tied compareGroups x) l.
Proof.
  apply (array_sort_stable compareGroups has_latest).
  intros a b c [ma Ha] [mb Hb] [mc Hc]. unfold tied, comes_after, compareGroups.
  rewrite Ha, Hb, Hc.
  destruct (hasActiveSession a), (hasActiveSession b), (hasActiveSession c);
    simpl; rewrite ?bool_decide_eq_false; try lia; intros [??] [??]; done.
Qed.

(** * Further properties *)

(** ** Display names of groups *)

Lemma str_app_cons c s t : String c s +:+ t = String c (s +:+ t).
Proof. reflexivity. Qed.



Lemma str_app_eq_nil s t : s +:+ t = "" → s = "" ∧ t = "".
Proof. destruct s; [done|]. rewrite str_app_cons. done. Qed.


Lemma split_path_nil current :
  split_path current "" = if decide (current = "") then [] else [current].
Proof. done. Qed.









(** ** Relative times *)

Lemma formatRelativeTime_finite now value :
  formatRelativeTime now (Num value)
  = let delta := now - milliseconds value in
    if bool_decide (delta < 60000) then Some JustNow
    else if bool_decide (delta / 60000 < 60) then Some (MinutesAgo (delta / 60000))
    else if bool_decide (delta / 60000 / 60 < 24) then Some (HoursAgo (delta / 60000 / 60))
    else if bool_decide (delta / 60000 / 60 / 24 < 7)
         then Some (DaysAgo (delta / 60000 / 60 / 24))
    else Some (LocaleDate (milliseconds value)).
Proof. reflexivity. Qed.

(** X2: a timestamp in seconds and the same instant in milliseconds are
    shown alike, when the seconds are at least [10^9] (so that their
    milliseconds are not taken for seconds again) and below [10^12]. *)
Theorem relative_time_of_seconds_and_milliseconds now seconds :
  (1000000000 ≤ seconds < 1000000000000)%Z →
  formatRelativeTime now (Num seconds) = formatRelativeTime now (Num (seconds * 1000)).
Proof.
  intros Hrange. rewrite !formatRelativeTime_finite. unfold milliseconds.
  rewrite (bool_decide_eq_true_2 (seconds < _)) by lia.
  by rewrite (bool_decide_eq_false_2 (seconds * 1000 < _)) by lia.
Qed.

Lemma relative_time_of_seconds_and_milliseconds_witness :
  formatRelativeTime 1700000300000 (Num 1700000000)
  = formatRelativeTime 1700000300000 (Num 1700000000000).
Proof.
  apply (relative_time_of_seconds_and_milliseconds 1700000300000 1700000000). lia.
Defined.


(** ** More on the selection *)

Lemma ids_elem_of (s : JsSet.t) x : x ∈ JsSet.ids s ↔ x ∈ s.
Proof. unfold JsSet.ids. apply elem_of_list_to_set. Qed.

Lemma size_ids (s : JsSet.t) : JsSet.wf s → size (JsSet.ids s) = JsSet.size s.
Proof. intros Hs. by apply size_list_to_set. Qed.

Lemma filter_all {A} (P : A → Prop) `{∀ x, Decision (P x)} (l : list A) :
  Forall P l → filter P l = l.
Proof.
  induction 1 as [|x l Hx _ IH]; [done|]. by rewrite filter_cons_True, IH.
Qed.

Lemma delete_added (l : list string) x : x ∉ l → JsSet.delete x (l ++ [x]) = l.
Proof.
  intros Hx. unfold JsSet.delete, JsSet.t.
  rewrite filter_app, filter_cons_False, filter_nil, app_nil_r
    by (intros H; by apply H).
  apply filter_all, Forall_forall. by intros y Hy ->.
Qed.

(** X4: toggling the same session twice gives back the selection, as a
    set, and the selection mode; and when the session was not selected
    before, the set is stored as before, element for element. *)
Theorem toggle_twice state sessionId :
  let state' :=
    selectionReducer (selectionReducer state (TOGGLE_SESSION sessionId))
                     (TOGGLE_SESSION sessionId) in
  JsSet.ids (selectedIds state') = JsSet.ids (selectedIds state)
  ∧ selectionMode state' = selectionMode state
  ∧ (JsSet.wf (selectedIds state) → sessionId ∉ selectedIds state →
     selectedIds state' = selectedIds state).
Proof.
  cbv zeta. split_and!.
  - apply set_eq. intros x. rewrite !ids_elem_of, !reducer_toggle_elem.
    destruct (decide (x = sessionId)), (decide (x ∈ selectedIds state));
      intuition congruence.
  - done.
  - intros Hwf Hnot. cbn [selectionReducer selectedIds].
    rewrite (of_array_wf (selectedIds state)) by done.
    assert (JsSet.has (selectedIds state) sessionId = false) as ->.
    { apply not_true_is_false. by rewrite has_true. }
    assert (JsSet.add sessionId (selectedIds state) = selectedIds state ++ [sessionId]) as ->.
    { unfold JsSet.add.
      destruct (JsSet.has (selectedIds state) sessionId) eqn:E; [|done].
      by apply has_true in E. }
    rewrite of_array_wf.
    + assert (JsSet.has (selectedIds state ++ [sessionId]) sessionId = true) as ->.
      { apply has_true. set_solver. }
      cbv beta iota zeta. by apply delete_added.
    + unfold JsSet.wf. apply NoDup_app. split_and!; [done| |apply NoDup_singleton].
      by intros x Hx ->%list_elem_of_singleton.
Qed.

Lemma toggle_twice_witness :
  selectedIds (selectionReducer
                 (selectionReducer {| selectionMode := true; selectedIds := ["a"; "b"] |}
                                   (TOGGLE_SESSION "c"))
                 (TOGGLE_SESSION "c"))
  = ["a"; "b"].
Proof.
  apply (toggle_twice {| selectionMode := true; selectedIds := ["a"; "b"] |} "c").
  - unfold JsSet.wf. simpl. apply NoDup_cons. split; [set_solver|].
    apply NoDup_singleton.
  - simpl. set_solver.
Defined.

(** Whatever is dispatched from the initial state, the selection is stored
    without duplicates, so that [selectedCount] is the number of distinct
    selected ids. *)
Lemma selected_count_counts_distinct_ids actions :
  let state := dispatchAll initialSelection actions in
  NoDup (selectedIds state)
  ∧ selectedCount state = size (JsSet.ids (selectedIds state)).
Proof.
  cbv zeta.
  assert (JsSet.wf (selectedIds (dispatchAll initialSelection actions))) as Hwf.
  { apply dispatchAll_wf. apply NoDup_nil_2. }
  split; [done|]. unfold selectedCount. by rewrite size_ids.
Qed.

Lemma selectable_elem_of sessions x :
  x ∈ selectable sessions ↔ ∃ s, s ∈ sessions ∧ active s = false ∧ id s = x.
Proof.
  unfold selectable, selectableSessionIds.
  rewrite elem_of_list_to_set, list_elem_of_fmap.
  split.
  - intros (s & -> & [Ha Hs]%list_elem_of_filter). by exists s.
  - intros (s & Hs & Ha & <-). exists s. split; [done|]. by apply list_elem_of_filter.
Qed.

Lemma size_selectable sessions :
  NoDup (selectableSessionIds sessions) →
  size (selectable sessions) = selectableCount sessions.
Proof. intros Hnd. by apply size_list_to_set. Qed.

Lemma gset_non_empty_size (X : gset string) : X ≠ ∅ ↔ size X ≠ 0%nat.
Proof.
  split.
  - intros Hne Hsize. apply Hne. by apply leibniz_equiv, size_empty_inv.
  - intros Hsize ->. by rewrite size_empty in Hsize.
Qed.

(** X5: with session ids that are unique and a selection within the
    selectable ids, "all selected" holds exactly when there is something to
    select and the selection is the set of all selectable ids, and
    "indeterminate" holds exactly when the selection is neither empty nor
    that set; the two never hold together. *)
Theorem all_selected_and_indeterminate sessions state :
  NoDup (selectableSessionIds sessions) →
  JsSet.wf (selectedIds state) →
  JsSet.ids (selectedIds state) ⊆ selectable sessions →
  (isAllSelected sessions state = true
   ↔ selectable sessions ≠ ∅ ∧ JsSet.ids (selectedIds state) = selectable sessions)
  ∧ (isIndeterminate sessions state = true
     ↔ JsSet.ids (selectedIds state) ≠ ∅
       ∧ JsSet.ids (selectedIds state) ≠ selectable sessions)
  ∧ (isAllSelected sessions state = true → isIndeterminate sessions state = false).
Proof.
  intros Hnd Hwf Hsub.
  pose proof (size_selectable sessions Hnd) as Hsize.
  pose proof (size_ids (selectedIds state) Hwf) as Hsel.
  pose proof (subseteq_size _ _ Hsub) as Hle.
  unfold isAllSelected, isIndeterminate, selectedCount.
  rewrite !andb_true_iff, !bool_decide_eq_true.
  rewrite <- Hsize, <- Hsel.
  split_and!.
  - split.
    + intros [Hpos Heq]. split.
      * intros Hempty. rewrite Hempty, size_empty in Hpos. lia.
      * apply set_subseteq_size_eq; [done|lia].
    + intros [Hne Heq]. rewrite Heq. split; [|done].
      apply gset_non_empty_size in Hne. lia.
  - split.
    + intros [Hpos Hlt]. split.
      * intros Hempty. rewrite Hempty, size_empty in Hpos. lia.
      * intros Heq. rewrite Heq in Hlt. lia.
    + intros [Hne Hneq]. split.
      * apply gset_non_empty_size in Hne. lia.
      * destruct (decide (size (JsSet.ids (selectedIds state))
                          < size (selectable sessions))%nat); [done|].
        exfalso. apply Hneq. apply set_subseteq_size_eq; [done|lia].
  - intros [_ Heq]. apply andb_false_iff. right.
    apply bool_decide_eq_false. lia.
Qed.

Lemma all_selected_and_indeterminate_witness :
  let session id active :=
    {| id := id; active := active; updatedAt := 0; pendingRequestsCount := 0;
       metadata := None |} in
  let sessions := [session "a" false; session "b" true; session "c" false] in
  isAllSelected sessions {| selectionMode := true; selectedIds := ["c"; "a"] |} = true.
Proof.
  intros session sessions.
  apply (all_selected_and_indeterminate sessions
           {| selectionMode := true; selectedIds := ["c"; "a"] |}).
  - unfold selectableSessionIds. simpl.
    apply NoDup_cons. split; [set_solver|]. apply NoDup_singleton.
  - unfold JsSet.wf. simpl. apply NoDup_cons. split; [set_solver|]. apply NoDup_singleton.
  - unfold JsSet.ids, selectable, selectableSessionIds. simpl. set_solver.
  - unfold JsSet.ids, selectable, selectableSessionIds. simpl. split; set_solver.
Defined.

(** X6: "select all" toggles. When not everything is selected it selects
    exactly the selectable ids, after which (with unique session ids and
    something to select) everything is selected; when everything is
    selected it clears the selection. The selection mode is kept. *)
Theorem select_all_toggles sessions c :
  NoDup (selectableSessionIds sessions) →
  let c' := handleSelectAll sessions c in
  selectionMode (selectionState c') = selectionMode (selectionState c)
  ∧ (isAllSelected sessions (selectionState c) = false →
     JsSet.ids (selectedIds (selectionState c')) = selectable sessions
     ∧ (selectable sessions ≠ ∅ → isAllSelected sessions (selectionState c') = true))
  ∧ (isAllSelected sessions (selectionState c) = true →
     selectedIds (selectionState c') = JsSet.empty
     ∧ isAllSelected sessions (selectionState c') = false).
Proof.
  intros Hnd. cbv zeta. unfold handleSelectAll.
  destruct (isAllSelected sessions (selectionState c)) eqn:E; split_and!; try done.
  - intros _. split; [done|].
    unfold isAllSelected in *. apply andb_true_iff in E as [Hpos _].
    apply bool_decide_eq_true in Hpos.
    apply andb_false_iff. right. apply bool_decide_eq_false.
    unfold selectedCount, JsSet.size. simpl. lia.
  - intros _. simpl. split.
    + unfold selectable. apply ids_of_array.
    + intros Hne. unfold isAllSelected, selectedCount, selectableCount.
      pose proof (of_array_wf (selectableSessionIds sessions) Hnd) as Hcopy.
      unfold JsSet.to_array in Hcopy. rewrite Hcopy.
      apply andb_true_iff. split; apply bool_decide_eq_true; [|done].
      destruct (selectableSessionIds sessions) eqn:El; [|simpl; lia].
      exfalso. apply Hne. unfold selectable. by rewrite El.
Qed.

Lemma select_all_toggles_witness :
  let session id active :=
    {| id := id; active := active; updatedAt := 0; pendingRequestsCount := 0;
       metadata := None |} in
  let sessions := [session "a" false; session "b" true; session "c" false] in
  let c := {| selectionState := {| selectionMode := true; selectedIds := ["c"] |};
              bulkDeleteDialogOpen := false; toasts := [] |} in
  JsSet.ids (selectedIds (selectionState (handleSelectAll sessions c))) = selectable sessions.
Proof.
  intros session sessions c.
  assert (NoDup (selectableSessionIds sessions)) as Hnd.
  { unfold selectableSessionIds. simpl.
    apply NoDup_cons. split; [set_solver|]. apply NoDup_singleton. }
  destruct (select_all_toggles sessions c Hnd) as (_ & Hselect & _).
  by apply Hselect.
Defined.

Lemma elem_of_fold_delete l (s : JsSet.t) y :
  y ∈ fold_left (λ s id, JsSet.delete id s) l s ↔ y ∈ s ∧ y ∉ l.
Proof.
  revert s. induction l as [|x l IH]; intros s; simpl.
  - split; [intros H; split; [done|apply not_elem_of_nil]|by intros [? _]].
  - rewrite IH, elem_of_delete, not_elem_of_cons. tauto.
Qed.

Lemma groupAllSelected_true state group :
  groupAllSelected state group = true
  ↔ groupSelectableSessionIds state group ≠ []
    ∧ ∀ x, x ∈ groupSelectableSessionIds state group → x ∈ selectedIds state.
Proof.
  unfold groupAllSelected, groupSelectedCount.
  rewrite andb_true_iff, !bool_decide_eq_true.
  destruct (selectionMode state) eqn:Hmode.
  - split.
    + intros [Hpos Hlen]. split.
      { intros Hnil. rewrite Hnil in Hpos. simpl in Hpos. lia. }
      apply filter_length_eq in Hlen. intros x Hx. rewrite <- Hlen in Hx.
      apply list_elem_of_filter in Hx as [Hx _]. by apply has_true.
    + intros [Hne Hall]. split.
      * destruct (groupSelectableSessionIds state group); [done|simpl; lia].
      * f_equal. apply filter_all, Forall_forall. intros x Hx.
        by apply has_true, Hall.
  - unfold groupSelectableSessionIds. rewrite Hmode. simpl. split; [lia|by intros [? _]].
Qed.

Lemma handleGroupToggle_ids group c :
  JsSet.ids (selectedIds (selectionState (handleGroupToggle group c)))
  = if groupAllSelected (selectionState c) group
    then JsSet.ids (selectedIds (selectionState c))
         ∖ list_to_set (groupSelectableSessionIds (selectionState c) group)
    else JsSet.ids (selectedIds (selectionState c))
         ∪ list_to_set (groupSelectableSessionIds (selectionState c) group).
Proof.
  unfold handleGroupToggle. cbn [dispatchSelection selectionState selectionReducer selectedIds].
  unfold JsSet.to_array. rewrite ids_of_array.
  destruct (groupAllSelected (selectionState c) group); apply set_eq; intros x.
  - rewrite elem_of_list_to_set, elem_of_fold_delete, elem_of_of_array.
    rewrite elem_of_difference, ids_elem_of, elem_of_list_to_set. done.
  - rewrite elem_of_list_to_set, elem_of_fold_add, elem_of_of_array.
    rewrite elem_of_union, ids_elem_of, elem_of_list_to_set. done.
Qed.

(** X7: the checkbox of a group. It counts as checked exactly when the
    group has selectable sessions and all of them are selected. Clicking
    it then removes exactly the group's selectable ids from the selection,
    and otherwise adds exactly those ids; ids outside the group stay as
    they are, and so does the selection mode. *)
Theorem group_checkbox group c :
  let state := selectionState c in
  let state' := selectionState (handleGroupToggle group c) in
  let in_group : gset string := list_to_set (groupSelectableSessionIds state group) in
  selectionMode state' = selectionMode state
  ∧ (groupAllSelected state group = true
     ↔ groupSelectableSessionIds state group ≠ []
       ∧ in_group ⊆ JsSet.ids (selectedIds state))
  ∧ JsSet.ids (selectedIds state')
    = (if groupAllSelected state group
       then JsSet.ids (selectedIds state) ∖ in_group
       else JsSet.ids (selectedIds state) ∪ in_group)
  ∧ (∀ x, x ∉ in_group →
       (x ∈ JsSet.ids (selectedIds state') ↔ x ∈ JsSet.ids (selectedIds state))).
Proof.
  cbv zeta. split_and!.
  - done.
  - rewrite groupAllSelected_true. split; intros [Hne Hall]; (split; [done|]).
    + intros x. rewrite elem_of_list_to_set, ids_elem_of. apply Hall.
    + intros x Hx. apply ids_elem_of, Hall. by apply elem_of_list_to_set.
  - apply handleGroupToggle_ids.
  - intros x Hx. rewrite handleGroupToggle_ids.
    destruct (groupAllSelected (selectionState c) group); set_solver.
Qed.

Lemma group_checkbox_witness :
  let session id active :=
    {| id := id; active := active; updatedAt := 0; pendingRequestsCount := 0;
       metadata := None |} in
  let group := makeGroup ("Other", [session "a" false; session "b" true; session "c" false]) in
  let c := {| selectionState := {| selectionMode := true; selectedIds := ["z"; "a"] |};
              bulkDeleteDialogOpen := false; toasts := [] |} in
  "z" ∈ JsSet.ids (selectedIds (selectionState (handleGroupToggle group c))).
Proof.
  intros session group c.
  destruct (group_checkbox group c) as (_ & _ & _ & Hother).
  apply (Hother "z").
  - vm_compute. set_solver.
  - unfold JsSet.ids. simpl. set_solver.
Defined.

Lemma group_sessions_in_input input g s :
  g ∈ groupSessionsByDirectory input → s ∈ sessions g → s ∈ input.
Proof.
  unfold groupSessionsByDirectory, JsMap.entries.
  rewrite array_sort_perm. intros ([k v] & -> & Hin)%list_elem_of_fmap Hs.
  destruct (grouped_entries input) as (_ & _ & Hperm).
  rewrite <- Hperm. apply elem_of_concat. exists v. split.
  - apply list_elem_of_fmap. by exists (k, v).
  - change (sessions (makeGroup (k, v))) with (array_sort compareSessions v) in Hs.
    by rewrite array_sort_perm in Hs.
Qed.

Lemma subseteq_ids (s s' : JsSet.t) (X : gset string) :
  (∀ x, x ∈ s' → x ∈ s ∨ x ∈ X) → JsSet.ids s ⊆ X → JsSet.ids s' ⊆ X.
Proof.
  intros Hs' Hs x Hx%ids_elem_of. destruct (Hs' x Hx) as [H|H]; [|done].
  by apply Hs, ids_elem_of.
Qed.

(** X8: the handlers of the list keep the selection within the selectable
    ids of the sessions shown: entering and leaving selection mode,
    clearing, a click on an item of the list, "select all", and the
    checkbox of a group of the list. (An active session is never selected
    by a click: the item handler does not dispatch for it.) *)
Theorem handlers_keep_selection_selectable sessions c :
  JsSet.ids (selectedIds (selectionState c)) ⊆ selectable sessions →
  JsSet.ids (selectedIds (selectionState (handleEnterSelectionMode c))) ⊆ selectable sessions
  ∧ JsSet.ids (selectedIds (selectionState (handleExitSelectionMode c))) ⊆ selectable sessions
  ∧ JsSet.ids (selectedIds (selectionState (dispatchSelection CLEAR_SELECTION c)))
    ⊆ selectable sessions
  ∧ (∀ s, s ∈ sessions →
       JsSet.ids (selectedIds (selectionState (itemToggle s c))) ⊆ selectable sessions)
  ∧ JsSet.ids (selectedIds (selectionState (handleSelectAll sessions c)))
    ⊆ selectable sessions
  ∧ (∀ g, g ∈ groupSessionsByDirectory sessions →
       JsSet.ids (selectedIds (selectionState (handleGroupToggle g c)))
       ⊆ selectable sessions).
Proof.
  intros Hinv. split_and!.
  - done.
  - simpl. unfold JsSet.ids. simpl. set_solver.
  - simpl. unfold JsSet.ids. simpl. set_solver.
  - intros s Hs. unfold itemToggle.
    destruct (selectionMode (selectionState c)); [|done]. simpl.
    destruct (active s) eqn:Ha; [done|]. simpl.
    eapply subseteq_ids; [|exact Hinv].
    intros x Hx. apply reducer_toggle_elem in Hx as [[-> _]|[_ Hx]]; [right|by left].
    apply selectable_elem_of. by exists s.
  - unfold handleSelectAll.
    destruct (isAllSelected sessions (selectionState c)); simpl.
    + unfold JsSet.ids. simpl. set_solver.
    + by rewrite ids_of_array.
  - intros g Hg.
    rewrite handleGroupToggle_ids.
    assert (list_to_set (groupSelectableSessionIds (selectionState c) g)
            ⊆ selectable sessions) as Hgroup.
    { intros x Hx%elem_of_list_to_set. unfold groupSelectableSessionIds in Hx.
      destruct (selectionMode (selectionState c)); [|by apply elem_of_nil in Hx].
      apply list_elem_of_fmap in Hx as (s & -> & [Ha Hs]%list_elem_of_filter).
      apply selectable_elem_of. exists s. split_and!; [|done..].
      by eapply group_sessions_in_input. }
    destruct (groupAllSelected (selectionState c) g); set_solver.
Qed.

Lemma handlers_keep_selection_selectable_witness :
  let session id active :=
    {| id := id; active := active; updatedAt := 0; pendingRequestsCount := 0;
       metadata := None |} in
  let sessions := [session "a" false; session "b" true; session "c" false] in
  let c := {| selectionState := {| selectionMode := true; selectedIds := ["a"] |};
              bulkDeleteDialogOpen := false; toasts := [] |} in
  JsSet.ids (selectedIds (selectionState (itemToggle (session "b" true) c)))
    ⊆ selectable sessions
  ∧ JsSet.ids (selectedIds (selectionState (itemToggle (session "c" false) c)))
    ⊆ selectable sessions.
Proof.
  intros session sessions c.
  assert (JsSet.ids (selectedIds (selectionState c)) ⊆ selectable sessions) as Hinv.
  { unfold JsSet.ids, selectable, selectableSessionIds. simpl. set_solver. }
  destruct (handlers_keep_selection_selectable sessions c Hinv) as (_ & _ & _ & Hitem & _).
  split; apply Hitem; set_solver.
Defined.

Lemma reconcile_valid sessions state :
  (∀ x, x ∈ selectedIds state → x ∈ selectableSessionIds sessions) →
  reconcileSelection sessions state = state.
Proof.
  intros Hvalid. unfold reconcileSelection, JsSet.size, JsSet.to_array.
  case_bool_decide; [done|].
  rewrite bool_decide_eq_true_2; [done|].
  f_equal. apply filter_all, Forall_forall. intros x Hx.
  by apply has_true, elem_of_of_array, Hvalid.
Qed.

(** X9: reconciliation leaves a selection within the selectable ids as it
    is, element for element, and so reconciling twice is the same as
    reconciling once. *)
Theorem reconcile_idempotent sessions state :
  (JsSet.ids (selectedIds state) ⊆ selectable sessions →
   reconcileSelection sessions state = state)
  ∧ reconcileSelection sessions (reconcileSelection sessions state)
    = reconcileSelection sessions state.
Proof.
  split.
  - intros Hsub. apply reconcile_valid. intros x Hx.
    apply ids_elem_of, Hsub in Hx. unfold selectable in Hx.
    by apply elem_of_list_to_set in Hx.
  - apply reconcile_valid. intros x Hx. by apply reconcile_elem in Hx as [_ Hx].
Qed.

Lemma reconcile_idempotent_witness :
  let session id active :=
    {| id := id; active := active; updatedAt := 0; pendingRequestsCount := 0;
       metadata := None |} in
  let sessions := [session "a" false; session "b" true; session "c" false] in
  reconcileSelection sessions {| selectionMode := true; selectedIds := ["c"; "a"] |}
  = {| selectionMode := true; selectedIds := ["c"; "a"] |}.
Proof.
  intros session sessions.
  apply (reconcile_idempotent sessions).
  unfold JsSet.ids, selectable, selectableSessionIds. simpl. set_solver.
Defined.

(** ** Collapsed groups *)

(** X10: a group without override is collapsed exactly when it has no
    active session. Toggling a group (as the list does, from its current
    state) flips it and leaves groups of other directories alone; the
    override then holds for every later group of that directory, whether
    or not it has an active session; and toggling twice gives back the
    state the group had. *)
Theorem collapse_toggle (overrides : gmap string bool) g :
  (overrides !! directory g = None →
   isGroupCollapsed overrides g = negb (hasActiveSession g))
  ∧ (∀ isCollapsed g',
       directory g' = directory g →
       isGroupCollapsed (toggleGroup (directory g) isCollapsed overrides) g'
       = negb isCollapsed)
  ∧ (∀ isCollapsed h,
       directory h ≠ directory g →
       isGroupCollapsed (toggleGroup (directory g) isCollapsed overrides) h
       = isGroupCollapsed overrides h)
  ∧ (let once := toggleGroup (directory g) (isGroupCollapsed overrides g) overrides in
     let twice := toggleGroup (directory g) (isGroupCollapsed once g) once in
     isGroupCollapsed once g = negb (isGroupCollapsed overrides g)
     ∧ isGroupCollapsed twice g = isGroupCollapsed overrides g).
Proof.
  assert (∀ isCollapsed (o : gmap string bool) g',
            directory g' = directory g →
            isGroupCollapsed (toggleGroup (directory g) isCollapsed o) g'
            = negb isCollapsed) as Hset.
  { intros b o g' Hdir. unfold isGroupCollapsed, toggleGroup.
    by rewrite Hdir, lookup_insert_eq. }
  split_and!.
  - intros Hnone. unfold isGroupCollapsed. by rewrite Hnone.
  - intros b g'. apply Hset.
  - intros b h Hne. unfold isGroupCollapsed, toggleGroup.
    by rewrite lookup_insert_ne.
  - cbv zeta. rewrite !Hset by done. split; [done|]. apply negb_involutive.
Qed.

Lemma collapse_toggle_witness :
  let g := makeGroup ("/p", []) in
  isGroupCollapsed ∅ g = true
  ∧ isGroupCollapsed (toggleGroup "/p" true ∅) g = false.
Proof.
  intros g. destruct (collapse_toggle ∅ g) as (Hdefault & Hset & _).
  split.
  - apply Hdefault. apply lookup_empty.
  - by apply (Hset true g).
Defined.

Lemma prune_fold (known : JsSet.t) keys : ∀ (m : gmap string bool) (b : bool),
  let r := fold_left
             (λ '(next, changed) directory,
                if JsSet.has known directory then (next, changed)
                else (delete directory next, true))
             keys (m, b) in
  (∀ k, r.1 !! k = if decide (k ∈ keys ∧ k ∉ known) then None else m !! k)
  ∧ (r.2 = false → r.1 = m).
Proof.
  induction keys as [|d keys IH]; intros m b; cbn [fold_left].
  - split; [|done]. intros k. destruct (decide _) as [[H _]|_]; [|done].
    by apply elem_of_nil in H.
  - destruct (JsSet.has known d) eqn:Hd.
    + destruct (IH m b) as [Hlook Hsame]. split; [|done].
      intros k. rewrite Hlook. apply has_true in Hd.
      apply decide_ext. rewrite elem_of_cons. intuition congruence.
    + assert (d ∉ known) as Hnot by (rewrite <- has_true; congruence).
      destruct (IH (delete d m) true) as [Hlook Hsame]. split.
      * intros k. rewrite Hlook.
        destruct (decide (k = d)) as [->|Hne].
        -- rewrite lookup_delete_eq.
           rewrite (decide_True (P := d ∈ d :: keys ∧ d ∉ known))
             by (split; [apply list_elem_of_here|done]).
           by destruct (decide _).
        -- rewrite lookup_delete_ne by done.
           apply decide_ext. rewrite elem_of_cons. intuition congruence.
      * intros Hfalse. exfalso. revert Hfalse. clear.
        generalize (delete d m). intros m'.
        assert (∀ keys (m : gmap string bool),
                  (fold_left
                     (λ '(next, changed) directory,
                        if JsSet.has known directory then (next, changed)
                        else (delete directory next, true))
                     keys (m, true)).2 = true) as Htrue.
        { clear. induction keys as [|d keys IH]; intros m; cbn [fold_left]; [done|].
          destruct (JsSet.has known d); apply IH. }
        by rewrite Htrue.
Qed.

Lemma prune_lookup groups (prev : gmap string bool) k :
  pruneCollapseOverrides groups prev !! k
  = if decide (k ∈ directory <$> groups) then prev !! k else None.
Proof.
  unfold pruneCollapseOverrides. case_bool_decide as Hsize.
  - apply map_size_empty_inv in Hsize. rewrite Hsize, lookup_empty.
    by destruct (decide _).
  - pose proof (prune_fold (JsSet.of_array (directory <$> groups))
                  (map_to_list prev).*1 prev false) as Hfold.
    cbv zeta in Hfold. destruct (fold_left _ _ _) as [next changed].
    destruct Hfold as [Hlook Hsame]. simpl in *.
    assert (next !! k = if decide (k ∈ directory <$> groups) then prev !! k else None)
      as Hnext.
    { rewrite Hlook.
      destruct (decide (k ∈ (map_to_list prev).*1 ∧ k ∉ JsSet.of_array (directory <$> groups)))
        as [[Hk Hnot]|Hno], (decide (k ∈ directory <$> groups)) as [Hin|Hout]; try done.
      - exfalso. apply Hnot. by apply elem_of_of_array.
      - destruct (prev !! k) as [v|] eqn:Hprev; [|done].
        exfalso. apply Hno. split.
        + apply list_elem_of_fmap. exists (k, v). split; [done|].
          by apply elem_of_map_to_list.
        + by rewrite elem_of_of_array. }
    destruct changed; [done|]. by rewrite (Hsame eq_refl) in Hnext.
Qed.

(** X11: dropping the overrides of vanished groups keeps exactly the
    overrides of the directories that still have a group: those are as
    before, the others are gone, and no group of the list changes its
    collapsed state. *)
Theorem prune_keeps_overrides_of_groups groups (prev : gmap string bool) :
  (∀ k, k ∈ directory <$> groups →
        pruneCollapseOverrides groups prev !! k = prev !! k)
  ∧ (∀ k, k ∉ directory <$> groups → pruneCollapseOverrides groups prev !! k = None)
  ∧ (∀ g, g ∈ groups →
       isGroupCollapsed (pruneCollapseOverrides groups prev) g = isGroupCollapsed prev g)
  ∧ pruneCollapseOverrides groups (pruneCollapseOverrides groups prev)
    = pruneCollapseOverrides groups prev.
Proof.
  split_and!.
  - intros k Hk. rewrite prune_lookup. by destruct (decide _).
  - intros k Hk. rewrite prune_lookup. by destruct (decide _).
  - intros g Hg. unfold isGroupCollapsed. rewrite prune_lookup.
    destruct (decide _) as [|Hno]; [done|].
    exfalso. apply Hno. apply list_elem_of_fmap. by exists g.
  - apply map_eq. intros k. rewrite !prune_lookup. by destruct (decide _).
Qed.

Lemma prune_keeps_overrides_of_groups_witness :
  let g := makeGroup ("/p", []) in
  let prev : gmap string bool := <["/gone" := true]> (<["/p" := false]> ∅) in
  pruneCollapseOverrides [g] prev !! "/p" = Some false
  ∧ pruneCollapseOverrides [g] prev !! "/gone" = None.
Proof.
  intros g prev.
  destruct (prune_keeps_overrides_of_groups [g] prev) as (Hkept & Hgone & _).
  split.
  - rewrite (Hkept "/p"); [done|]. simpl. set_solver.
  - apply Hgone. simpl. set_solver.
Defined.

(** ** The groups, in closed form *)

Lemma of_array_snoc l x : JsSet.of_array (l ++ [x]) = JsSet.add x (JsSet.of_array l).
Proof. unfold JsSet.of_array. by rewrite fold_left_app. Qed.

Lemma filter_key_snoc input s k :
  filter (λ s', groupKey s' = k) (input ++ [s])
  = filter (λ s', groupKey s' = k) input ++ (if decide (groupKey s = k) then [s] else []).
Proof.
  by rewrite filter_app.
Qed.

Lemma filter_key_absent input k :
  k ∉ groupKey <$> input → filter (λ s, groupKey s = k) input = [].
Proof.
  induction input as [|s input IH]; [done|].
  rewrite fmap_cons, not_elem_of_cons. intros [Hne Hk].
  rewrite filter_cons_False by done. by apply IH.
Qed.

(** The map built by the grouping loop: one entry per key, in the order in
    which the keys first occur, holding the sessions of the key in the
    order of the input. *)
Lemma grouping_map input :
  fold_left add_to_groups input JsMap.empty
  = sessions_of_key input <$> JsSet.of_array (groupKey <$> input).
Proof.
  induction input as [|s input IH] using rev_ind; [done|].
  rewrite fold_left_app. cbn [fold_left]. rewrite IH.
  rewrite fmap_app. change (groupKey <$> [s]) with [groupKey s].
  rewrite of_array_snoc.
  set (K := JsSet.of_array (groupKey <$> input)).
  assert (NoDup K) as HK by apply NoDup_of_array.
  assert ((sessions_of_key input <$> K).*1 = K) as Hkeys.
  { rewrite <- list_fmap_compose. rewrite <- (list_fmap_id K) at 2.
    by apply list_fmap_ext. }
  destruct (add_to_groups_cases (sessions_of_key input <$> K) s)
    as [[Hk ->]|(m1 & v & m2 & Hm & Hm1 & ->)].
  - rewrite Hkeys in Hk.
    assert (JsSet.add (groupKey s) K = K ++ [groupKey s]) as ->.
    { unfold JsSet.add. destruct (JsSet.has K (groupKey s)) eqn:E; [|done].
      by apply has_true in E. }
    rewrite fmap_app. f_equal.
    + apply list_fmap_ext. intros _ k Hin%list_elem_of_lookup_2.
      unfold sessions_of_key. rewrite filter_key_snoc.
      destruct (decide (groupKey s = k)) as [<-|_]; [done|]. by rewrite app_nil_r.
    + simpl. unfold sessions_of_key. rewrite filter_key_snoc, filter_key_absent.
      * by destruct (decide (groupKey s = groupKey s)).
      * unfold K in Hk. by rewrite elem_of_of_array in Hk.
  - assert (groupKey s ∈ K) as Hin.
    { rewrite <- Hkeys, Hm, fmap_app, fmap_cons. set_solver. }
    assert (JsSet.add (groupKey s) K = K) as ->.
    { unfold JsSet.add. destruct (JsSet.has K (groupKey s)) eqn:E; [done|].
      apply has_true in Hin. congruence. }
    apply fmap_app_inv in Hm as (K1 & K2' & -> & Hm2 & HKeq).
    destruct K2' as [|k K2]; [done|]. rewrite fmap_cons in Hm2.
    unfold sessions_of_key in Hm2 at 1.
    injection Hm2 as Hk Hv Hrest. subst k v m2.
    rewrite HKeq in HK |- *.
    apply NoDup_app in HK as (_ & Hdisj & [Hk2 _]%NoDup_cons).
    rewrite fmap_app, fmap_cons. f_equal; [|f_equal].
    + apply list_fmap_ext. intros _ k' Hk'%list_elem_of_lookup_2.
      unfold sessions_of_key. rewrite filter_key_snoc.
      destruct (decide (groupKey s = k')) as [<-|_]; [|by rewrite app_nil_r].
      exfalso. apply (Hdisj _ Hk'). apply list_elem_of_here.
    + unfold sessions_of_key. rewrite filter_key_snoc.
      by destruct (decide (groupKey s = groupKey s)).
    + apply list_fmap_ext. intros _ k' Hk'%list_elem_of_lookup_2.
      unfold sessions_of_key. rewrite filter_key_snoc.
      destruct (decide (groupKey s = k')) as [<-|_]; [done|by rewrite app_nil_r].
Qed.

Lemma groups_before_sort input :
  groupSessionsByDirectory input
  = array_sort compareGroups
      (makeGroup <$> (sessions_of_key input <$> JsSet.of_array (groupKey <$> input))).
Proof. unfold groupSessionsByDirectory, JsMap.entries. by rewrite grouping_map. Qed.

Lemma first_seen_groups_have_latest input :
  Forall has_latest
    (makeGroup <$> (sessions_of_key input <$> JsSet.of_array (groupKey <$> input))).
Proof.
  rewrite <- grouping_map.
  destruct (grouped_entries input) as (_ & Hall & _).
  apply Forall_fmap, Forall_forall. intros [k v] Hin.
  rewrite Forall_forall in Hall. destruct (Hall _ Hin) as [Hv _].
  destruct (makeGroup_latest k v Hv) as (m & Hm & _). by exists m.
Qed.

(** X12: the groups in closed form. There is one group per key of the
    input; a group holds the sessions of the input that have its key,
    sorted, and sessions that tie (same tier, same [updatedAt]) stand in
    the order of the input; groups that tie (both with or both without an
    active session, same [latestUpdatedAt]) stand in the order in which
    their keys first occur in the input; no sessions give no groups. *)
Theorem groups_in_closed_form input :
  let groups := groupSessionsByDirectory input in
  let first_seen :=
    makeGroup <$> (sessions_of_key input <$> JsSet.of_array (groupKey <$> input)) in
  directory <$> first_seen = JsSet.of_array (groupKey <$> input)
  ∧ groups ≡ₚ first_seen
  ∧ (∀ k, k ∈ directory <$> groups ↔ ∃ s, s ∈ input ∧ groupKey s = k)
  ∧ (∀ g, g ∈ groups →
       sessions g
       = array_sort compareSessions (filter (λ s, groupKey s = directory g) input))
  ∧ (∀ g x, g ∈ groups →
       filter (tied compareSessions x) (sessions g)
       = filter (tied compareSessions x) (filter (λ s, groupKey s = directory g) input))
  ∧ (∀ x, x ∈ groups →
       filter (tied compareGroups x) groups = filter (tied compareGroups x) first_seen)
  ∧ (groups = [] ↔ input = []).
Proof.
  cbv zeta. rewrite groups_before_sort.
  set (first_seen :=
         makeGroup <$> (sessions_of_key input <$> JsSet.of_array (groupKey <$> input))).
  assert (directory <$> first_seen = JsSet.of_array (groupKey <$> input)) as Hdirs.
  { unfold first_seen. rewrite <- !list_fmap_compose.
    rewrite <- (list_fmap_id (JsSet.of_array _)) at 2. by apply list_fmap_ext. }
  assert (∀ g, g ∈ array_sort compareGroups first_seen →
            g = makeGroup (sessions_of_key input (directory g))) as Hshape.
  { intros g. rewrite array_sort_perm. unfold first_seen.
    rewrite <- list_fmap_compose. by intros (k & -> & _)%list_elem_of_fmap. }
  split_and!.
  - done.
  - apply array_sort_perm.
  - intros k. rewrite array_sort_perm, Hdirs, elem_of_of_array, list_elem_of_fmap.
    split; intros (s & ? & ?); by exists s.
  - intros g Hg. by rewrite (Hshape g Hg) at 1.
  - intros g x Hg. rewrite (Hshape g Hg) at 1.
    apply sessions_sort_stable.
  - intros x Hx. apply groups_sort_stable; [|apply first_seen_groups_have_latest].
    pose proof (first_seen_groups_have_latest input) as Hall.
    rewrite Forall_forall in Hall. apply Hall. by rewrite array_sort_perm in Hx.
  - split.
    + intros Hnil. destruct input as [|s input]; [done|].
      assert (groupKey s ∈ directory <$> array_sort compareGroups first_seen) as Hin.
      { rewrite array_sort_perm, Hdirs, elem_of_of_array, fmap_cons.
        apply list_elem_of_here. }
      rewrite Hnil in Hin. by apply elem_of_nil in Hin.
    + by intros ->.
Qed.

Lemma groups_in_closed_form_witness :
  let session id active updatedAt key :=
    {| id := id; active := active; updatedAt := updatedAt; pendingRequestsCount := 0;
       metadata := Some {| path := key; worktree := None; flavor := None |} |} in
  let input := [session "a" false 5 (Some "/p"); session "b" false 5 (Some "/q");
                session "c" false 5 (Some "/p")] in
  let g := makeGroup (sessions_of_key input "/p") in
  sessions g = [session "a" false 5 (Some "/p"); session "c" false 5 (Some "/p")].
Proof.
  intros session input g.
  destruct (groups_in_closed_form input) as (_ & _ & _ & Hsessions & _).
  rewrite (Hsessions g); [reflexivity|].
  vm_compute. apply list_elem_of_here.
Defined.

(** ** More on the bulk deletion *)

Lemma in_flight_from events : ∀ start,
  fold_left
    (λ open e, match e with Called _ _ => open + 1 | Settled _ _ _ => open - 1 end)
    events start
  = start + in_flight events.
Proof.
  unfold in_flight. induction events as [|e events IH]; intros start; simpl; [lia|].
  rewrite IH, (IH (match e with Called _ _ => _ | Settled _ _ _ => _ end)).
  destruct e; lia.
Qed.

Lemma in_flight_app events events' :
  in_flight (events ++ events') = in_flight events + in_flight events'.
Proof. unfold in_flight at 1. by rewrite fold_left_app, !in_flight_from. Qed.

Lemma in_flight_called calls : in_flight (called <$> calls) = Z.of_nat (length calls).
Proof.
  induction calls as [|c calls IH]; [done|].
  rewrite fmap_cons. change (called c :: (called <$> calls))
    with ([called c] ++ (called <$> calls)).
  rewrite in_flight_app, IH. simpl length. unfold in_flight, called. simpl. lia.
Qed.

Lemma in_flight_settled api calls :
  in_flight (settled api <$> calls) = - Z.of_nat (length calls).
Proof.
  induction calls as [|c calls IH]; [done|].
  rewrite fmap_cons. change (settled api c :: (settled api <$> calls))
    with ([settled api c] ++ (settled api <$> calls)).
  rewrite in_flight_app, IH. simpl length. unfold in_flight, settled. simpl. lia.
Qed.

(** During a batch of at most [limit] calls, between 0 and [limit] calls
    are in flight, and none is when the batch is over. *)
Lemma in_flight_batch api calls :
  (length calls ≤ limit)%nat →
  in_flight (batch_events api calls) = 0
  ∧ ∀ before after, batch_events api calls = before ++ after →
      (0 ≤ in_flight before ≤ Z.of_nat limit)%Z.
Proof.
  intros Hlen.
  assert (length (completion_order api calls) = length calls) as Horder
    by by rewrite completion_order_perm.
  unfold batch_events. split.
  - rewrite in_flight_app, in_flight_called, in_flight_settled. lia.
  - intros before after Hsplit.
    apply app_eq_app in Hsplit as [l [[Hmade Hafter]|[Hbefore Hsettled]]].
    + apply fmap_app_inv in Hmade as (c1 & c2 & -> & _ & ->).
      rewrite in_flight_called. rewrite length_app in Hlen. lia.
    + apply fmap_app_inv in Hsettled as (o1 & o2 & -> & _ & Ho).
      rewrite Hbefore, in_flight_app, in_flight_called, in_flight_settled.
      rewrite Ho, length_app in Horder. lia.
Qed.

Lemma in_flight_concat segments :
  Forall (λ segment,
            in_flight segment = 0
            ∧ ∀ before after, segment = before ++ after →
                (0 ≤ in_flight before ≤ Z.of_nat limit)%Z) segments →
  in_flight (concat segments) = 0
  ∧ ∀ before after, concat segments = before ++ after →
      (0 ≤ in_flight before ≤ Z.of_nat limit)%Z.
Proof.
  induction 1 as [|segment segments [Hzero Hprefix] _ [IHzero IHprefix]]; simpl.
  - split; [done|]. intros before after Hsplit.
    symmetry in Hsplit. apply app_eq_nil in Hsplit as [-> _]. unfold limit. done.
  - split; [rewrite in_flight_app; lia|].
    intros before after Hsplit.
    apply app_eq_app in Hsplit as [l [[Hseg _]|[-> Hrest]]].
    + by apply (Hprefix before l).
    + rewrite in_flight_app, Hzero. by apply (IHprefix l after).
Qed.

(** X13: at no time during a bulk deletion are more than 5 delete calls in
    flight, and none is in flight when it ends. *)
Theorem bulk_delete_bounds_calls_in_flight api ids :
  in_flight (bulkDelete (Some api) ids).1 = 0
  ∧ ∀ before after,
      (bulkDelete (Some api) ids).1 = before ++ after →
      (0 ≤ in_flight before ≤ 5)%Z.
Proof.
  rewrite bulkDelete_eq. cbn [fst].
  apply in_flight_concat, Forall_fmap, Forall_forall.
  intros chunk Hchunk. apply in_flight_batch.
  apply list_elem_of_lookup in Hchunk as [k Hk].
  apply chunks_lookup in Hk as [-> _]. rewrite length_take. lia.
Qed.

Lemma bulk_delete_bounds_calls_in_flight_witness :
  let api := {| Api.deleteSession := λ _ _, Fulfilled ();
                Api.settlesAt := λ n _, (20 - n)%nat;
                Api.setPermissionMode := λ _ _, Fulfilled () |} in
  let ids := ["a"; "b"; "c"; "d"; "e"; "f"; "g"] in
  (0 ≤ in_flight (take 6 (bulkDelete (Some api) ids).1) ≤ 5)%Z.
Proof.
  intros api ids.
  destruct (bulk_delete_bounds_calls_in_flight api ids) as [_ Hbound].
  apply (Hbound _ (drop 6 (bulkDelete (Some api) ids).1)).
  by rewrite take_drop.
Defined.

Lemma fulfilled_ids_elem_of client ids id :
  id ∈ fulfilled_ids client (numbered ids)
  ↔ ∃ n, ids !! n = Some id ∧ is_fulfilled (Api.deleteSession client n id) = true.
Proof.
  unfold fulfilled_ids. rewrite list_elem_of_omap. split.
  - intros ([n id'] & Hin & Hf).
    apply list_elem_of_lookup in Hin as [m Hm].
    apply batch_calls_lookup in Hm as [Hn Hm]. simpl in *. subst n.
    destruct (Api.deleteSession client m id') eqn:E; [|done].
    injection Hf as ->. exists m. by rewrite E.
  - intros (n & Hn & Hf). exists (n, id). split.
    + apply (list_elem_of_lookup_2 _ n). by apply batch_calls_lookup.
    + simpl. by destruct (Api.deleteSession client n id).
Qed.

Lemma evictions_elem_of (succeeded : list string) e :
  e ∈ flat_map (λ id, [RemoveSessionQuery id; ClearMessageWindow id]) succeeded
  ↔ ∃ id, id ∈ succeeded ∧ (e = RemoveSessionQuery id ∨ e = ClearMessageWindow id).
Proof.
  rewrite list_elem_of_In, in_flat_map. split.
  - intros (id & Hin & He). exists id. rewrite list_elem_of_In. split; [done|].
    simpl in He. destruct He as [<-|[<-|[]]]; auto.
  - intros (id & Hin & He). exists id. rewrite <- list_elem_of_In. split; [done|].
    simpl. destruct He as [->| ->]; auto.
Qed.

(** X14: what a bulk deletion does to the cache. Without an API client
    nothing is touched. With one, the cached session and the message
    window are dropped for exactly the ids that had a delete call
    fulfilled, never for an id whose calls were all rejected; no single
    session is invalidated; and the list of sessions is invalidated once,
    as the last step, even when every deletion failed. *)
Theorem bulk_delete_evicts_the_deleted ids :
  deleteSessions None ids = ([], [], Rejected (Error "API unavailable"))
  ∧ ∀ client, ∃ events cache result,
      deleteSessions (Some client) ids = (events, cache ++ [InvalidateSessionsQuery],
                                          Fulfilled result)
      ∧ (InvalidateSessionsQuery ∉ cache)
      ∧ (∀ id, InvalidateSessionQuery id ∉ cache)
      ∧ (∀ id, RemoveSessionQuery id ∈ cache
               ↔ ∃ n, ids !! n = Some id
                      ∧ is_fulfilled (Api.deleteSession client n id) = true)
      ∧ (∀ id, ClearMessageWindow id ∈ cache ↔ RemoveSessionQuery id ∈ cache).
Proof.
  split; [done|]. intros client.
  unfold deleteSessions. rewrite bulkDelete_eq. unfold bulkDeleteOnSuccess.
  cbn [succeeded]. eexists _, _, _. split; [reflexivity|].
  split_and!.
  - rewrite evictions_elem_of. by intros (id & _ & [?|?]).
  - intros id. rewrite evictions_elem_of. by intros (id' & _ & [?|?]).
  - intros id. rewrite <- fulfilled_ids_elem_of, evictions_elem_of. split.
    + by intros (id' & Hin & [[= ->]|?]).
    + intros Hin. exists id. by split; [|left].
  - intros id. rewrite !evictions_elem_of. split.
    + intros (id' & Hin & [?|[= ->]]); [done|]. exists id'. by split; [|left].
    + intros (id' & Hin & [[= ->]|?]); [|done]. exists id'. by split; [|right].
Qed.

Lemma rejected_ids_of_all_failed api ids : ∀ first,
  fulfilled_ids api (batch_calls first ids) = [] →
  Failed.id <$> rejected_entries api (batch_calls first ids) = ids.
Proof.
  induction ids as [|id ids IH]; intros first; [done|].
  rewrite batch_calls_cons. unfold fulfilled_ids, rejected_entries in *.
  cbn [omap list_omap fst snd].
  destruct (Api.deleteSession api first id); simpl; [done|].
  intros Hnone. by rewrite IH.
Qed.

Lemma classified_count api ids : ∀ first,
  (length (fulfilled_ids api (batch_calls first ids))
   + length (rejected_entries api (batch_calls first ids)) = length ids)%nat.
Proof.
  induction ids as [|id ids IH]; intros first; [done|].
  rewrite batch_calls_cons. unfold fulfilled_ids, rejected_entries in *.
  cbn [omap list_omap fst snd]. specialize (IH (S first)).
  destruct (Api.deleteSession api first id); simpl in *; lia.
Qed.

(** X15: confirming a bulk deletion with an API client at hand. Afterwards
    the selected ids are exactly the ids whose deletion failed (none when
    all succeeded), the dialog is closed, and exactly one toast is added,
    which counts the succeeded ids when nothing failed and the failed ids
    otherwise; succeeded and failed ids together are as many as were
    selected. Without an API client nothing changes: no call is made, no
    toast is shown and the dialog stays as it is. *)
Theorem confirm_leaves_the_failed_selected locale c :
  handleConfirmBulkDelete locale None c = ([], c)
  ∧ ∀ client, ∃ events result toast,
      handleConfirmBulkDelete locale (Some client) c
      = (events, applyBulkDeleteResult locale result c)
      ∧ (bulkDelete (Some client) (JsSet.to_array (selectedIds (selectionState c)))).2
        = Fulfilled result
      ∧ JsSet.ids (selectedIds (selectionState (applyBulkDeleteResult locale result c)))
        = list_to_set (Failed.id <$> failed result)
      ∧ bulkDeleteDialogOpen (applyBulkDeleteResult locale result c) = false
      ∧ toasts (applyBulkDeleteResult locale result c) = toasts c ++ [toast]
      ∧ Toast.n toast
        = (if decide (failed result = []) then length (succeeded result)
           else length (failed result))
      ∧ (length (succeeded result) + length (failed result)
         = JsSet.size (selectedIds (selectionState c)))%nat.
Proof.
  split; [done|]. intros client.
  unfold handleConfirmBulkDelete. rewrite bulkDelete_eq.
  set (ids := JsSet.to_array (selectedIds (selectionState c))).
  set (result := {| succeeded := fulfilled_ids client (numbered ids);
                    failed := rejected_entries client (numbered ids) |}).
  assert (∃ toast,
            toasts (applyBulkDeleteResult locale result c) = toasts c ++ [toast]
            ∧ Toast.n toast
              = if decide (failed result = []) then length (succeeded result)
                else length (failed result)) as (toast & Htoasts & Hn).
  { unfold applyBulkDeleteResult.
    destruct (decide (failed result = [])) as [Hf|Hf].
    - rewrite Hf. simpl. by eexists.
    - case_bool_decide as Hlf; [by apply length_zero_iff_nil in Hlf|].
      case_bool_decide; simpl; by eexists. }
  exists (concat (batch_events client <$> chunks (numbered ids))), result, toast.
  split_and!; try done.
  - destruct (decide (failed result = [])) as [Hf|Hf].
    + rewrite (proj1 (apply_result_all_succeeded locale result c Hf)). by rewrite Hf.
    + destruct (decide (succeeded result = [])) as [Hs|Hs].
      * rewrite apply_result_all_failed by done.
        cbn [failed result]. unfold numbered.
        rewrite rejected_ids_of_all_failed by exact Hs. done.
      * rewrite apply_result_mixed by done. cbn [selectedIds].
        by rewrite ids_of_array.
  - apply classified_count.
Qed.
